(** * vsock server: the per-connection serve loop of [server/conn.go]

    The repository carries two variants of [conn.go]:
    - the path-addressed one (an enveloped request selects its handler by a
      string path), modelled in [Module PathAddressed];
    - the code-addressed one (the header's code selects the handler),
      modelled in [Module CodeAddressed].

    Both are embedded as programs of a small monad over a [world]: the world
    holds the scripted answers of the stream (what the successive [Peek],
    [ReadSocket] and [WriteSocket] calls return) and the trace of the calls
    the connection makes on its collaborators.  A Go panic is an outcome of
    its own, so that [recover] in a deferred function can be modelled. *)

From Stdlib Require Import ZArith List Bool Lia.
From Stdlib.Strings Require Import String Byte.
Import ListNotations.
Open Scope Z_scope.

Set Implicit Arguments.

(** ** Go values *)

(** [[]byte]; the nil slice and the empty slice are both [[]]. *)
Definition bytes : Type := list byte.

(** [len(s)] *)
Definition len (A : Type) (s : list A) : Z := Z.of_nat (List.length s).

(** [uint16(n)] for a non-negative [int]: the low 16 bits. *)
Definition uint16 (n : Z) : Z := n mod 2 ^ 16.

(** [[]byte(s)] *)
Definition bytes_of_string (s : string) : bytes := list_byte_of_string s.

(** [models.Header]; [Code] and [Length] are [uint16] fields. *)
Record Header : Type := mkHeader
  { Magic : Z; Version : Z; Code : Z; Length : Z }.

(** [header.Code = c] and [header.Length = l] *)
Definition set_Code (c : Z) (h : Header) : Header :=
  mkHeader (Magic h) (Version h) c (Length h).
Definition set_Length (l : Z) (h : Header) : Header :=
  mkHeader (Magic h) (Version h) (Code h) l.

(** Go [error] values met by the connection.  [io_EOF] is the sentinel
    [io.EOF], which the code compares by identity; [net_timeout] is the
    error a read or write returns when its deadline fires. *)
Inductive error : Type :=
| io_EOF
| net_timeout
| errors_New (msg : string).

(** [err.Error()] *)
Definition Error (e : error) : string :=
  match e with
  | io_EOF => "EOF"
  | net_timeout => "i/o timeout"
  | errors_New msg => msg
  end.

(** [err == io.EOF] *)
Definition is_EOF (e : error) : bool :=
  match e with io_EOF => true | _ => false end.

(** [*errors.Status]: a numeric code and a message. *)
Record Status : Type := mkStatus
  { Status_Code : Z; Status_Error : string }.

(** A call of an application handler either returns or panics. *)
Inductive call (A : Type) : Type :=
| Returns (a : A)
| Panics (v : string).
Arguments Panics {A} v.

(** ** Deadlines, events, world *)

(** [time.Time{}] is "no deadline"; [time.Now().Add(d)] is [NowPlus d]. *)
Inductive deadline : Type :=
| NoDeadline
| NowPlus (d : Z).

(** The calls a connection makes on its stream, the buffer pool and the
    metrics, and the error line it logs for a recovered panic, in program
    order.  The debug lines of the logger ([log.Debug], [log.Debugf]) and
    the reading of the remote address are not recorded. *)
Inductive event : Type :=
| EvGetBufReader
| EvGetBufWriter
| EvSetReadDeadline (d : deadline)
| EvSetWriteDeadline (d : deadline)
| EvPeek (n : Z)
| EvReadSocket
| EvReadHistUpdate
| EvWriteSocket (h : Header) (body : bytes)
| EvWriteHistUpdate
| EvLogErrorf (v : string)
| EvPrintClose (closeErr : error)
| EvRwcClose
| EvPutBufReader
| EvPutBufWriter
| EvConnsHistDec.

Definition is_PutBufReader (e : event) : bool :=
  match e with EvPutBufReader => true | _ => false end.
Definition is_PutBufWriter (e : event) : bool :=
  match e with EvPutBufWriter => true | _ => false end.
Definition is_WriteSocket (e : event) : bool :=
  match e with EvWriteSocket _ _ => true | _ => false end.
Definition is_RwcClose (e : event) : bool :=
  match e with EvRwcClose => true | _ => false end.

(** How many times a kind of event occurs in a trace. *)
Definition occurrences (p : event -> bool) (t : list event) : nat :=
  List.length (filter p t).

(** The world of one connection: [peeks], [reads] and [writes] are what the
    stream answers to the successive [Peek], read-message and write-message
    calls ([R] and [W] are the result types of the two framing calls);
    [trace] is what the connection has done so far. *)
Record world (R W : Type) : Type := mkWorld
  { peeks : list (option error);
    reads : list R;
    writes : list W;
    trace : list event }.

(** ** The monad of connection programs *)

Inductive outcome (S A : Type) : Type :=
| Ok (a : A) (s : S)          (* returned [a] *)
| Panic (v : string) (s : S)  (* a panic is unwinding the stack *)
| Blocked (s : S)             (* the stream has nothing more to answer *)
| OutOfFuel (s : S).
Arguments Ok {S A} a s.
Arguments Panic {S A} v s.
Arguments Blocked {S A} s.
Arguments OutOfFuel {S A} s.

Definition M (S A : Type) : Type := S -> outcome S A.

Definition ret (S A : Type) (a : A) : M S A := fun s => Ok a s.

Definition bind (S A B : Type) (m : M S A) (k : A -> M S B) : M S B :=
  fun s =>
    match m s with
    | Ok a s' => k a s'
    | Panic v s' => Panic v s'
    | Blocked s' => Blocked s'
    | OutOfFuel s' => OutOfFuel s'
    end.

Definition panic (S A : Type) (v : string) : M S A := fun s => Panic v s.
Definition out_of_fuel (S A : Type) : M S A := fun s => OutOfFuel s.
Arguments ret {S A} a.
Arguments panic {S A} v.
Arguments out_of_fuel {S A}.

Notation "x <- m ;; k" := (bind m (fun x => k))
  (at level 61, m at next level, right associativity).
Notation "m ;; k" := (bind m (fun _ => k))
  (at level 61, right associativity).

(** [if cond { m }] *)
Definition when (S : Type) (cond : bool) (m : M S unit) : M S unit :=
  if cond then m else ret tt.

(** Running a call inside the connection: a panic starts unwinding. *)
Definition run_call (S A : Type) (c : call A) : M S A :=
  match c with
  | Returns a => ret a
  | Panics v => panic v
  end.
Arguments run_call {S A} c.

Section Stream.
Variables R W : Type.

Definition emit (e : event) : M (world R W) unit :=
  fun w => Ok tt (mkWorld (peeks w) (reads w) (writes w) (trace w ++ [e])).

Definition SetReadDeadline (d : deadline) : M (world R W) unit :=
  emit (EvSetReadDeadline d).
Definition SetWriteDeadline (d : deadline) : M (world R W) unit :=
  emit (EvSetWriteDeadline d).

(** [_, err := c.bufReader.Peek(n)] *)
Definition Peek (n : Z) : M (world R W) (option error) :=
  fun w =>
    let t := trace w ++ [EvPeek n] in
    match peeks w with
    | [] => Blocked (mkWorld [] (reads w) (writes w) t)
    | r :: ps => Ok r (mkWorld ps (reads w) (writes w) t)
    end.

(** [socket.ReadSocket(ctx, c.bufReader)] *)
Definition ReadSocket : M (world R W) R :=
  fun w =>
    let t := trace w ++ [EvReadSocket] in
    match reads w with
    | [] => Blocked (mkWorld (peeks w) [] (writes w) t)
    | r :: rs => Ok r (mkWorld (peeks w) rs (writes w) t)
    end.

(** [socket.WriteSocket(ctx, c.bufWriter, header, body)] *)
Definition WriteSocket (h : Header) (body : bytes) : M (world R W) W :=
  fun w =>
    let t := trace w ++ [EvWriteSocket h body] in
    match writes w with
    | [] => Blocked (mkWorld (peeks w) (reads w) [] t)
    | r :: ws => Ok r (mkWorld (peeks w) (reads w) ws t)
    end.
End Stream.
Arguments emit {R W} e.
Arguments SetReadDeadline {R W} d.
Arguments SetWriteDeadline {R W} d.
Arguments Peek {R W} n.
Arguments ReadSocket {R W}.
Arguments WriteSocket {R W} h body.

(** * The path-addressed connection *)

Module PathAddressed.

(** [protocols.Request] and [protocols.Response], the two envelopes. *)
Record Request : Type := mkRequest
  { Request_Path : string; Request_Req : bytes }.

Inductive ResponseCode : Type := StatusOK | StatusErr.

Record Response : Type := mkResponse
  { Response_Code : ResponseCode; Response_Rsp : bytes; Response_Err : string }.

(** A registered handler: [func([]byte) ([]byte, error)]. *)
Definition Handler : Type := bytes -> call (bytes * option error).

(** What [conn.go] takes from the packages it imports and that are not part
    of this file: the protocol constants, the two statuses and the
    keep-alive error of the [errors] package, and the protobuf codec of the
    two envelopes ([proto.Unmarshal] into a [Request], [proto.Marshal] of a
    [Response]). *)
Record Imports : Type := mkImports
  { DefaultMagic : Z;
    DefaultVersion : Z;
    StatusInvalidRequest : Status;
    StatusInvalidPath : Status;
    ErrNoKeepAlive : error;
    Unmarshal : bytes -> option Request;
    Marshal : Response -> bytes + error }.

(** The [Server] as the connection sees it: the two timeouts, the results of
    the [idleTimeout()] and [doKeepAlives()] accessors, and the registry. *)
Record Server : Type := mkServer
  { ReadTimeout : Z;
    WriteTimeout : Z;
    idleTimeout : Z;
    doKeepAlives : bool;
    getHandler : string -> option Handler }.

(** [header, body, broken, err := socket.ReadSocket(...)] *)
Inductive read_result : Type :=
| ReadOk (header : Header) (body : bytes)
| ReadErr (broken : bool) (err : error).

(** [broken, err := socket.WriteSocket(...)] *)
Definition write_result : Type := (bool * option error)%type.

Definition World : Type := world read_result write_result.

Section Conn.
Variable imports : Imports.
Variable server : Server.

(** The envelope that [wrap] builds before marshalling it. *)
Definition wrap_response (bs : bytes) (err : option error) : Response :=
  match err with
  | Some e => mkResponse StatusErr [] (Error e)
  | None => mkResponse StatusOK bs ""
  end.

(** The closure [wrap] of [handleServe]: a marshalling failure panics. *)
Definition wrap (bs : bytes) (err : option error) : call bytes :=
  match Marshal imports (wrap_response bs err) with
  | inl rspBytes => Returns rspBytes
  | inr e => Panics (Error e)
  end.

(** [func (c *Conn) handleServe(ctx, body) ([]byte, error)]; the error is
    always a [*errors.Status]. *)
Definition handleServe (body : bytes) : call (bytes * option Status) :=
  match Unmarshal imports body with
  | None => Returns ([], Some (StatusInvalidRequest imports))
  | Some request =>
      match getHandler server (Request_Path request) with
      | None => Returns ([], Some (StatusInvalidPath imports))
      | Some handler =>
          match handler (Request_Req request) with
          | Panics v => Panics v
          | Returns (bs, err) =>
              match wrap bs err with
              | Panics v => Panics v
              | Returns rsp => Returns (rsp, None)
              end
          end
      end
  end.

(** [func (c *Conn) responseSuccess(ctx, header, rspBytes) (bool, error)] *)
Definition responseSuccess (header : Header) (rspBytes : bytes)
  : M World write_result :=
  let header := set_Code 0 header in
  let header := set_Length (uint16 (len rspBytes)) header in
  WriteSocket header rspBytes.

(** [func (c *Conn) responseStatus(ctx, status) (bool, error)] *)
Definition responseStatus (status : Status) : M World write_result :=
  let header :=
    mkHeader (DefaultMagic imports) (DefaultVersion imports)
             (Status_Code status) 0 in
  let body := bytes_of_string (Status_Error status) in
  let header := set_Length (uint16 (len body)) header in
  WriteSocket header body.

(** [func (c *Conn) Close(err error)] *)
Definition Close (err : error) : M World unit :=
  emit (EvPrintClose err) ;;
  emit EvRwcClose ;;
  emit EvPutBufReader ;;
  emit EvPutBufWriter.

(** The closure [waitNext] of [serve]; every turn of its loop makes one
    [Peek], so the fuel bounds the number of peeks. *)
Fixpoint waitNext (fuel : nat) : M World (option error) :=
  match fuel with
  | O => out_of_fuel
  | S fuel' =>
      let wait := idleTimeout server in
      (if negb (wait =? 0)
       then SetReadDeadline (NowPlus wait)
       else SetReadDeadline NoDeadline) ;;
      err <- Peek 1 ;;
      match err with
      | Some e =>
          if is_EOF e then waitNext fuel'
          else ret (Some (errors_New ("serve wait peek err : " ++ Error e)))
      | None =>
          SetReadDeadline NoDeadline ;;
          ret None
      end
  end.

(** [waitNext] with the fuel its loop can need: one turn per scripted
    peek, and one more to find the script empty. *)
Definition waitNext_call : M World (option error) :=
  fun w => waitNext (S (List.length (peeks w))) w.

(** The [// keepAlive] tail of the loop body; [again] is the next turn. *)
Definition keepAlive (again : M World error) : M World error :=
  if negb (doKeepAlives server)
  then ret (ErrNoKeepAlive imports)
  else again.

(** One turn of the [for] loop of [serve], from the read to the
    keep-alive decision, once [waitNext] has returned [werr]; [again] is
    the next turn.  The result is the [closeErr] the function returns
    with. *)
Definition after_wait (again : M World error) (werr : option error)
  : M World error :=
  match werr with
  | Some err => ret err
  | None =>
      when (negb (ReadTimeout server =? 0))
           (SetReadDeadline (NowPlus (ReadTimeout server))) ;;
      r <- ReadSocket ;;
      emit EvReadHistUpdate ;;
      match r with
      | ReadErr broken err =>
          if broken then ret err else again
      | ReadOk header body =>
          when (negb (WriteTimeout server =? 0))
               (SetWriteDeadline (NowPlus (WriteTimeout server))) ;;
          hs <- run_call (handleServe body) ;;
          let '(rspBytes, status) := hs in
          match status with
          | Some status =>
              wr <- responseStatus status ;;
              emit EvWriteHistUpdate ;;
              match wr with
              | (true, Some err) => ret err
              | _ => keepAlive again
              end
          | None =>
              wr <- responseSuccess header rspBytes ;;
              emit EvWriteHistUpdate ;;
              match wr with
              | (true, Some err) => ret err
              | _ => keepAlive again
              end
          end
      end
  end.

Definition loop_body (again : M World error) : M World error :=
  werr <- waitNext_call ;;
  after_wait again werr.

(** The [for] loop of [serve]. *)
Fixpoint serve_loop (fuel : nat) : M World error :=
  match fuel with
  | O => out_of_fuel
  | S fuel' => loop_body (serve_loop fuel')
  end.

(** The body of [serve], up to the [return] or the panic that ends it. *)
Definition serve_body (fuel : nat) : M World error :=
  emit EvGetBufReader ;;
  emit EvGetBufWriter ;;
  when (ReadTimeout server =? 0) (SetReadDeadline NoDeadline) ;;
  when (WriteTimeout server =? 0) (SetWriteDeadline NoDeadline) ;;
  serve_loop fuel.

(** [func (c *Conn) serve(ctx)].  The deferred calls run last-in
    first-out when the body returns or panics: the [recover] closure (it
    logs when a panic is unwinding and stops it), then [c.Close(closeErr)]
    with the value [closeErr] has at that moment, then
    [c.server.connsHist.Dec(1)].  [c.remoteAddr] only feeds the log line
    and is left out. *)
Definition serve (fuel : nat) : M World unit :=
  fun w =>
    let closeErr := errors_New "serve default close" in
    match serve_body fuel w with
    | Ok closeErr' w' =>
        (Close closeErr' ;; emit EvConnsHistDec) w'
    | Panic v w' =>
        (emit (EvLogErrorf v) ;; Close closeErr ;; emit EvConnsHistDec) w'
    | Blocked w' => Blocked w'
    | OutOfFuel w' => OutOfFuel w'
    end.

(** [serve] with fuel for every turn its loop can take: each turn makes at
    least one [Peek]. *)
Definition serve_call : M World unit :=
  fun w => serve (S (List.length (peeks w))) w.

End Conn.

(** The events that the phases of a turn add to the trace. *)
Section Phases.
Variable server : Server.

(** The deadline [waitNext] arms before each peek. *)
Definition idle_deadline : deadline :=
  if negb (idleTimeout server =? 0)
  then NowPlus (idleTimeout server) else NoDeadline.

(** One peek of [waitNext], and a whole [waitNext] whose first peek finds
    data. *)
Definition peek_events : list event :=
  [EvSetReadDeadline idle_deadline; EvPeek 1].
Definition wait_events : list event :=
  peek_events ++ [EvSetReadDeadline NoDeadline].

Definition read_events : list event :=
  (if negb (ReadTimeout server =? 0)
   then [EvSetReadDeadline (NowPlus (ReadTimeout server))] else [])
  ++ [EvReadSocket; EvReadHistUpdate].

Definition write_deadline_events : list event :=
  if negb (WriteTimeout server =? 0)
  then [EvSetWriteDeadline (NowPlus (WriteTimeout server))] else [].

Definition write_events (h : Header) (body : bytes) : list event :=
  [EvWriteSocket h body; EvWriteHistUpdate].

Definition start_events : list event :=
  [EvGetBufReader; EvGetBufWriter]
  ++ (if ReadTimeout server =? 0 then [EvSetReadDeadline NoDeadline] else [])
  ++ (if WriteTimeout server =? 0
      then [EvSetWriteDeadline NoDeadline] else []).

Definition close_events (closeErr : error) : list event :=
  [EvPrintClose closeErr; EvRwcClose; EvPutBufReader; EvPutBufWriter].
End Phases.

End PathAddressed.

(** * The code-addressed connection *)

Module CodeAddressed.

(** A registered handler: [func(code uint16, body []byte) []byte]. *)
Definition Handler : Type := Z -> bytes -> call bytes.

(** What this [conn.go] takes from the packages it imports: the protocol
    constants, [client.CodeInvalidAction] and [models.HeaderSize]. *)
Record Imports : Type := mkImports
  { DefaultMagic : Z;
    DefaultVersion : Z;
    CodeInvalidAction : Z;
    HeaderSize : Z }.

Record Server : Type := mkServer
  { ReadTimeout : Z;
    WriteTimeout : Z;
    idleTimeout : Z;
    doKeepAlives : bool;
    getHandler : Z -> option Handler }.

(** [header, body, err := socket.ReadSocketTest(...)] *)
Inductive read_result : Type :=
| ReadOk (header : Header) (body : bytes)
| ReadErr (err : error).

(** [err = socket.WriteSocket(...)] *)
Definition write_result : Type := option error.

Definition World : Type := world read_result write_result.

Section Conn.
Variable imports : Imports.
Variable server : Server.

(** [func (c *Conn) handleServe(ctx, header, body) ([]byte, bool)] *)
Definition handleServe (header : Header) (body : bytes)
  : call (bytes * bool) :=
  match getHandler server (Code header) with
  | None => Returns ([], false)
  | Some handler =>
      match handler (Code header) body with
      | Panics v => Panics v
      | Returns rspBytes => Returns (rspBytes, true)
      end
  end.

(** [func (c *Conn) responseError(ctx, code, msg) error] *)
Definition responseError (code : Z) (msg : string) : M World write_result :=
  let header :=
    mkHeader (DefaultMagic imports) (DefaultVersion imports) code 0 in
  let body := bytes_of_string msg in
  let header := set_Length (uint16 (len body)) header in
  WriteSocket header body.

(** [func (c *Conn) Close()] *)
Definition Close : M World unit :=
  emit EvRwcClose ;;
  emit EvPutBufReader ;;
  emit EvPutBufWriter.

(** The closure [waitNext] of [serve]. *)
Definition waitNext : M World bool :=
  let wait := idleTimeout server in
  if negb (wait =? 0) then
    SetReadDeadline (NowPlus wait) ;;
    err <- Peek (HeaderSize imports) ;;
    match err with
    | Some _ => ret false
    | None =>
        SetReadDeadline NoDeadline ;;
        ret true
    end
  else ret false.

(** The two calls of [waitNext] at the end of a turn:
    [if !waitNext() { return }] and then the next turn [again]. *)
Definition wait_then (again : M World unit) : M World unit :=
  next <- waitNext ;;
  if negb next then ret tt else again.

(** One turn of the [for] loop of [serve]; [again] is the next turn. *)
Definition loop_body (again : M World unit) : M World unit :=
  when (negb (ReadTimeout server =? 0))
       (SetReadDeadline (NowPlus (ReadTimeout server))) ;;
  r <- ReadSocket ;;
  match r with
  | ReadErr _ => ret tt
  | ReadOk header body =>
      when (negb (WriteTimeout server =? 0))
           (SetWriteDeadline (NowPlus (WriteTimeout server))) ;;
      hs <- run_call (handleServe header body) ;;
      let '(rspBytes, ok) := hs in
      if negb ok then
        err <- responseError (CodeInvalidAction imports) "invalid action" ;;
        match err with
        | Some _ => ret tt
        | None => wait_then again
        end
      else
        let header := set_Code 0 header in
        let header := set_Length (uint16 (len rspBytes)) header in
        err <- WriteSocket header rspBytes ;;
        match err with
        | Some _ => ret tt
        | None =>
            if negb (doKeepAlives server) then ret tt
            else wait_then again
        end
  end.

(** The [for] loop of [serve]; every turn reads one message. *)
Fixpoint serve_loop (fuel : nat) : M World unit :=
  match fuel with
  | O => out_of_fuel
  | S fuel' => loop_body (serve_loop fuel')
  end.

(** The body of [serve], up to the [return] or the panic that ends it. *)
Definition serve_body (fuel : nat) : M World unit :=
  emit EvGetBufReader ;;
  emit EvGetBufWriter ;;
  when (ReadTimeout server =? 0) (SetReadDeadline NoDeadline) ;;
  when (WriteTimeout server =? 0) (SetWriteDeadline NoDeadline) ;;
  serve_loop fuel.

(** [func (c *Conn) serve(ctx)]: the deferred [recover] closure runs
    first, then the deferred [c.Close()]. *)
Definition serve (fuel : nat) : M World unit :=
  fun w =>
    match serve_body fuel w with
    | Ok _ w' => Close w'
    | Panic v w' => (emit (EvLogErrorf v) ;; Close) w'
    | Blocked w' => Blocked w'
    | OutOfFuel w' => OutOfFuel w'
    end.

(** [serve] with fuel for every turn its loop can take. *)
Definition serve_call : M World unit :=
  fun w => serve (S (List.length (reads w))) w.

End Conn.

(** The events that the phases of a turn add to the trace. *)
Section Phases.
Variable imports : Imports.
Variable server : Server.

Definition read_events : list event :=
  (if negb (ReadTimeout server =? 0)
   then [EvSetReadDeadline (NowPlus (ReadTimeout server))] else [])
  ++ [EvReadSocket].

Definition write_deadline_events : list event :=
  if negb (WriteTimeout server =? 0)
  then [EvSetWriteDeadline (NowPlus (WriteTimeout server))] else [].

(** The peek of a [waitNext] whose idle timeout is not zero. *)
Definition peek_events : list event :=
  [EvSetReadDeadline (NowPlus (idleTimeout server));
   EvPeek (HeaderSize imports)].

Definition start_events : list event :=
  [EvGetBufReader; EvGetBufWriter]
  ++ (if ReadTimeout server =? 0 then [EvSetReadDeadline NoDeadline] else [])
  ++ (if WriteTimeout server =? 0
      then [EvSetWriteDeadline NoDeadline] else []).

Definition close_events : list event :=
  [EvRwcClose; EvPutBufReader; EvPutBufWriter].
End Phases.

End CodeAddressed.

(** * Sample servers and streams *)

Module Sample.

(** A sample codec that stands for protobuf in the runs below: a request
    body is the path, a zero byte, and the request bytes; a response body is
    one code byte, the response bytes and the error text. *)
Fixpoint split_at_zero (bs : bytes) : option (bytes * bytes) :=
  match bs with
  | [] => None
  | b :: rest =>
      if Byte.eqb b x00 then Some ([], rest)
      else match split_at_zero rest with
           | Some (path, req) => Some (b :: path, req)
           | None => None
           end
  end.

Definition Unmarshal (body : bytes) : option PathAddressed.Request :=
  match split_at_zero body with
  | Some (path, req) =>
      Some (PathAddressed.mkRequest (string_of_list_byte path) req)
  | None => None
  end.

Definition Marshal (r : PathAddressed.Response) : bytes + error :=
  inl ((match PathAddressed.Response_Code r with
        | PathAddressed.StatusOK => x00
        | PathAddressed.StatusErr => x01
        end)
       :: PathAddressed.Response_Rsp r
       ++ bytes_of_string (PathAddressed.Response_Err r)).

Definition request (path : string) (req : string) : bytes :=
  bytes_of_string path ++ [x00] ++ bytes_of_string req.

Definition path_imports : PathAddressed.Imports :=
  PathAddressed.mkImports
    9527 1
    (mkStatus 400 "invalid request")
    (mkStatus 404 "invalid path")
    (errors_New "no keep alive")
    Unmarshal Marshal.

(** Three handlers: one echoes, one fails, one panics. *)
Definition path_registry (path : string) : option PathAddressed.Handler :=
  if String.eqb path "/echo" then Some (fun req => Returns (req, None))
  else if String.eqb path "/fail"
       then Some (fun _ => Returns ([], Some (errors_New "no such user")))
  else if String.eqb path "/panic"
       then Some (fun _ => Panics "nil pointer dereference")
  else None.

Definition path_server (idle : Z) (keepAlive : bool) : PathAddressed.Server :=
  PathAddressed.mkServer 0 0 idle keepAlive path_registry.

(** The header of a request of [n] body bytes addressed to [code]. *)
Definition request_header (code n : Z) : Header := mkHeader 9527 1 code n.

Definition path_read (path req : string) : PathAddressed.read_result :=
  let body := request path req in
  PathAddressed.ReadOk (request_header 0 (len body)) body.

(** A stream on which a request for [first] and then one for [/echo] arrive
    and every write succeeds. *)
Definition two_requests (first : string) : PathAddressed.World :=
  mkWorld [None; None]
          [path_read first "hi"; path_read "/echo" "hi"]
          [(false, None); (false, None)]
          [].

(** A stream on which nothing arrives before the idle deadline fires. *)
Definition idle_then_timeout : PathAddressed.World :=
  mkWorld [Some net_timeout] [] [] [].

Definition code_imports : CodeAddressed.Imports :=
  CodeAddressed.mkImports 9527 1 404 9.

(** A body of 65536 zero bytes. *)
Definition long_body : bytes := repeat x00 (Z.to_nat 65536).

(** Code 1 echoes the body; code 2 answers [long_body]. *)
Definition code_registry (code : Z) : option CodeAddressed.Handler :=
  if code =? 1 then Some (fun _ body => Returns body)
  else if code =? 2 then Some (fun _ _ => Returns long_body)
  else None.

Definition code_server (idle : Z) (keepAlive : bool) : CodeAddressed.Server :=
  CodeAddressed.mkServer 0 0 idle keepAlive code_registry.

Definition code_read (code : Z) (req : string) : CodeAddressed.read_result :=
  let body := bytes_of_string req in
  CodeAddressed.ReadOk (request_header code (len body)) body.

(** A stream on which a request for [first] and then one for code 1 arrive
    and every write succeeds. *)
Definition code_two_requests (first : Z) : CodeAddressed.World :=
  mkWorld [None]
          [code_read first "hi"; code_read 1 "hi"]
          [None; None]
          [].

End Sample.

(** * Observations on traces *)

(** The events that hand a pooled buffer back to the pool. *)
Definition is_release (e : event) : bool :=
  is_PutBufReader e || is_PutBufWriter e.

Definition releases (t : list event) : list event := filter is_release t.

(** A program that releases no buffer, however it ends. *)
Definition keeps_buffers (R W A : Type) (m : M (world R W) A) : Prop :=
  forall w : world R W,
    match m w with
    | Ok _ w' | Panic _ w' | Blocked w' | OutOfFuel w' =>
        releases (trace w') = releases (trace w)
    end.
Arguments keeps_buffers R W A m : clear implicits.

(** What is left of the stream: the measures that bound the turns of the
    two loops. *)
Definition peeks_left (R W : Type) (w : world R W) : nat :=
  List.length (peeks w).
Definition reads_left (R W : Type) (w : world R W) : nat :=
  List.length (reads w).

(** A program that, started with a measure below [n], does not run out of
    fuel ([finishes]), and moreover returns with the measure still below
    [n] ([steady]). *)
Definition finishes (R W A : Type) (mu : world R W -> nat) (n : nat)
           (m : M (world R W) A) : Prop :=
  forall w : world R W,
    (mu w < n)%nat ->
    match m w with
    | OutOfFuel _ => False
    | _ => True
    end.

Definition steady (R W A : Type) (mu : world R W -> nat) (n : nat)
           (m : M (world R W) A) : Prop :=
  forall w : world R W,
    (mu w < n)%nat ->
    match m w with
    | Ok _ w' => (mu w' < n)%nat
    | OutOfFuel _ => False
    | _ => True
    end.

(** ** Programs that emit only some events *)

(** Whatever way [m] ends, it has only appended events that satisfy [p]. *)
Definition emits_only (R W A : Type) (p : event -> bool)
           (m : M (world R W) A) : Prop :=
  forall w : world R W,
    match m w with
    | Ok _ w' | Panic _ w' | Blocked w' | OutOfFuel w' =>
        exists evs : list event,
          trace w' = trace w ++ evs /\ forallb p evs = true
    end.
Arguments emits_only R W A p m : clear implicits.

(** The operations on the stream and the metrics of a turn: everything a
    connection does between acquiring its buffers and closing. *)
Definition is_turn_event (e : event) : bool :=
  match e with
  | EvSetReadDeadline _ | EvSetWriteDeadline _ | EvPeek _ | EvReadSocket
  | EvReadHistUpdate | EvWriteSocket _ _ | EvWriteHistUpdate => true
  | _ => false
  end.

(** A frame whose header length is the 16-bit length of its body. *)
Definition frame_length_ok (e : event) : bool :=
  match e with
  | EvWriteSocket h body => Length h =? uint16 (len body)
  | _ => true
  end.

(** ** Monitors of a trace *)

(** A monitor reads the trace event by event and stops at the first event it
    refuses. *)
Definition feed (St : Type) (step : St -> event -> option St)
           (o : option St) (e : event) : option St :=
  match o with
  | Some s => step s e
  | None => None
  end.

Definition monitor (St : Type) (step : St -> event -> option St)
           (s0 : St) (t : list event) : option St :=
  fold_left (feed step) t (Some s0).

Definition accepts (St : Type) (step : St -> event -> option St)
           (s0 : St) (t : list event) : bool :=
  match monitor step s0 t with
  | Some _ => true
  | None => false
  end.

(** [guarded step s0 P m Q]: started on a trace the monitor accepts in a
    state satisfying [P], the program [m] only appends events the monitor
    accepts, and returns in a state satisfying [Q]. *)
Definition guarded (R W St A : Type) (step : St -> event -> option St)
           (s0 : St) (P : St -> Prop) (m : M (world R W) A)
           (Q : A -> St -> Prop) : Prop :=
  forall (w : world R W) (s : St),
    monitor step s0 (trace w) = Some s -> P s ->
    match m w with
    | Ok a w' => exists s', monitor step s0 (trace w') = Some s' /\ Q a s'
    | Panic _ w' | Blocked w' | OutOfFuel w' =>
        monitor step s0 (trace w') <> None
    end.

Arguments guarded R W {St A} step s0 P m Q.

(** An event the monitor accepts in every state that [P] allows, and the
    states it leads to. *)
Definition passes (St : Type) (step : St -> event -> option St)
           (P : St -> Prop) (e : event) : Prop :=
  forall s, P s -> step s e <> None.

Definition after (St : Type) (step : St -> event -> option St)
           (P : St -> Prop) (e : event) : St -> Prop :=
  fun s' => exists s, P s /\ step s e = Some s'.

(** *** The deadline in force at each blocking call *)

Definition deadline_eqb (a b : deadline) : bool :=
  match a, b with
  | NoDeadline, NoDeadline => true
  | NowPlus x, NowPlus y => x =? y
  | _, _ => false
  end.

(** The deadline each kind of blocking call is meant to run under. *)
Record deadline_policy : Type := mkPolicy
  { peek_under : deadline; read_under : deadline; write_under : deadline }.

(** The deadlines last set on the stream; [None] before the first set. *)
Record deadlines : Type := mkDeadlines
  { read_deadline : option deadline; write_deadline : option deadline }.

Definition armed (d : deadline) (o : option deadline) : bool :=
  match o with
  | Some d' => deadline_eqb d' d
  | None => false
  end.

(** A peek or a read is refused unless the read deadline last set is the
    one of the policy; a write likewise with the write deadline. *)
Definition deadline_step (policy : deadline_policy) (s : deadlines)
           (e : event) : option deadlines :=
  match e with
  | EvSetReadDeadline d => Some (mkDeadlines (Some d) (write_deadline s))
  | EvSetWriteDeadline d => Some (mkDeadlines (read_deadline s) (Some d))
  | EvPeek _ =>
      if armed (peek_under policy) (read_deadline s) then Some s else None
  | EvReadSocket =>
      if armed (read_under policy) (read_deadline s) then Some s else None
  | EvWriteSocket _ _ =>
      if armed (write_under policy) (write_deadline s) then Some s else None
  | _ => Some s
  end.

Definition under_deadlines (policy : deadline_policy) (t : list event)
  : bool :=
  accepts (deadline_step policy) (mkDeadlines None None) t.

(** [if timeout != 0 { now + timeout } else { no deadline }] *)
Definition timeout_deadline (timeout : Z) : deadline :=
  if negb (timeout =? 0) then NowPlus timeout else NoDeadline.

Definition path_policy (server : PathAddressed.Server) : deadline_policy :=
  mkPolicy (timeout_deadline (PathAddressed.idleTimeout server))
           (timeout_deadline (PathAddressed.ReadTimeout server))
           (timeout_deadline (PathAddressed.WriteTimeout server)).

(** The code-addressed connection peeks only when the idle timeout is not
    zero. *)
Definition code_policy (server : CodeAddressed.Server) : deadline_policy :=
  mkPolicy (NowPlus (CodeAddressed.idleTimeout server))
           (timeout_deadline (CodeAddressed.ReadTimeout server))
           (timeout_deadline (CodeAddressed.WriteTimeout server)).

(** *** One frame written per message read *)

(** The state is whether a message has been read that no frame has answered
    yet; a frame is refused when there is none. *)
Definition answer_step (pending : bool) (e : event) : option bool :=
  match e with
  | EvReadSocket => Some true
  | EvWriteSocket _ _ => if pending then Some false else None
  | _ => Some pending
  end.

Definition answers_only (t : list event) : bool :=
  accepts answer_step false t.

(** *** No read without a peek *)

(** The state is whether the stream has been peeked since the last read of
    a message; a read is refused when it has not. *)
Definition peek_step (peeked : bool) (e : event) : option bool :=
  match e with
  | EvPeek _ => Some true
  | EvReadSocket => if peeked then Some false else None
  | _ => Some peeked
  end.

Definition reads_follow_peeks (t : list event) : bool :=
  accepts peek_step false t.

(** *** The stream is used between acquiring and closing *)

(** Where a connection is in its life: nothing acquired, the reader
    acquired, both buffers acquired and the stream open, the stream closed,
    the reader released, both released. *)
Inductive stage : Type :=
| Fresh | HasReader | Open | Closed | ReaderBack | Released.

(** The stages follow one another in that order, and a deadline, a peek, a
    read or a write is refused unless the connection is [Open].  The other
    events are not constrained. *)
Definition life_step (s : stage) (e : event) : option stage :=
  match e with
  | EvGetBufReader => match s with Fresh => Some HasReader | _ => None end
  | EvGetBufWriter => match s with HasReader => Some Open | _ => None end
  | EvSetReadDeadline _ | EvSetWriteDeadline _ | EvPeek _
  | EvReadSocket | EvWriteSocket _ _ =>
      match s with Open => Some Open | _ => None end
  | EvRwcClose => match s with Open => Some Closed | _ => None end
  | EvPutBufReader => match s with Closed => Some ReaderBack | _ => None end
  | EvPutBufWriter => match s with ReaderBack => Some Released | _ => None end
  | _ => Some s
  end.

(** *** Frames and messages read *)

(** The frames a trace holds. *)
Definition frames (t : list event) : nat := occurrences is_WriteSocket t.

(** A read that brought a message. *)
Definition path_read_ok (r : PathAddressed.read_result) : bool :=
  match r with
  | PathAddressed.ReadOk _ _ => true
  | PathAddressed.ReadErr _ _ => false
  end.

Definition code_read_ok (r : CodeAddressed.read_result) : bool :=
  match r with
  | CodeAddressed.ReadOk _ _ => true
  | CodeAddressed.ReadErr _ => false
  end.

(** [slack ok rs0 k w]: of the read script [rs0] the world [w] has consumed
    a prefix, and the messages that prefix brought outnumber the frames
    written so far by [k] at least. *)
Definition slack (R W : Type) (ok : R -> bool) (rs0 : list R) (k : nat)
           (w : world R W) : Prop :=
  exists consumed : list R,
    rs0 = consumed ++ reads w
    /\ (frames (trace w) + k <= List.length (filter ok consumed))%nat.

(** [answering ok rs0 k m Q]: started with a slack of [k], the program [m]
    returns [a] with a slack of [Q a], and never, however it ends, has it
    written more frames than messages were read. *)
Definition answering (R W A : Type) (ok : R -> bool) (rs0 : list R)
           (k : nat) (m : M (world R W) A) (Q : A -> nat) : Prop :=
  forall w : world R W,
    slack ok rs0 k w ->
    match m w with
    | Ok a w' => slack ok rs0 (Q a) w'
    | Panic _ w' | Blocked w' | OutOfFuel w' => slack ok rs0 0 w'
    end.
Arguments answering {R} W {A} ok rs0 k m Q.

(** * More sample servers *)

Module MoreSamples.

(** A codec that, like proto3, refuses an error text that is not ASCII. *)
Definition is_ascii (b : byte) : bool := (Z.of_N (Byte.to_N b) <? 128).

Definition strict_Marshal (r : PathAddressed.Response) : bytes + error :=
  if forallb is_ascii (bytes_of_string (PathAddressed.Response_Err r))
  then Sample.Marshal r
  else inr (errors_New "proto: field contains invalid UTF-8").

Definition strict_imports : PathAddressed.Imports :=
  PathAddressed.mkImports
    9527 1
    (mkStatus 400 "invalid request")
    (mkStatus 404 "invalid path")
    (errors_New "no keep alive")
    Sample.Unmarshal strict_Marshal.

(** A handler whose error text holds the byte 0xff. *)
Definition bad_text : string := String (Ascii.ascii_of_byte xff) EmptyString.

Definition bad_registry (path : string) : option PathAddressed.Handler :=
  if String.eqb path "/bad"
  then Some (fun _ => Returns ([], Some (errors_New bad_text)))
  else None.

Definition bad_server : PathAddressed.Server :=
  PathAddressed.mkServer 3 4 5 true bad_registry.

(** A server with the three timeouts set. *)
Definition timed_server (keepAlive : bool) : PathAddressed.Server :=
  PathAddressed.mkServer 3 4 5 keepAlive Sample.path_registry.

Definition timed_code_server (keepAlive : bool) : CodeAddressed.Server :=
  CodeAddressed.mkServer 3 4 5 keepAlive Sample.code_registry.

End MoreSamples.

(** * Properties *)

Import Sample.
Unset Implicit Arguments.

(** ** Slices and the 16-bit length *)

Lemma len_nonneg (A : Type) (s : list A) : 0 <= len s.
Proof. unfold len. lia. Qed.

Lemma uint16_small (n : Z) : 0 <= n <= 65535 -> uint16 n = n.
Proof. intros H. unfold uint16. apply Z.mod_small. lia. Qed.

Lemma uint16_range (n : Z) : 0 <= uint16 n <= 65535.
Proof.
  unfold uint16.
  assert (H : 0 <= n mod 2 ^ 16 < 2 ^ 16) by (apply Z.mod_pos_bound; lia).
  change (2 ^ 16) with 65536 in *. lia.
Qed.

Lemma uint16_large (n : Z) : 65535 < n -> uint16 n <> n.
Proof. intros H E. pose proof (uint16_range n). lia. Qed.

Lemma len_repeat (A : Type) (a : A) (n : nat) : len (repeat a n) = Z.of_nat n.
Proof. unfold len. now rewrite repeat_length. Qed.

Lemma len_long_body : len long_body = 65536.
Proof. unfold long_body. rewrite len_repeat. apply Z2Nat.id. lia. Qed.

Arguments long_body : simpl never.

(** ** The envelope of a dispatched request *)

(** C9: when a registered handler returns, [handleServe] marshals exactly one
    envelope: [StatusOK] with the handler's bytes and an empty [Err] when the
    returned error is nil; [StatusErr] with the error's message and a nil
    [Rsp] when it is not. *)
Theorem path_handleServe_envelope
  (imports : PathAddressed.Imports) (server : PathAddressed.Server)
  (body : bytes) (request : PathAddressed.Request)
  (handler : PathAddressed.Handler) (bs : bytes) (err : option error) :
  PathAddressed.Unmarshal imports body = Some request ->
  PathAddressed.getHandler server (PathAddressed.Request_Path request)
    = Some handler ->
  handler (PathAddressed.Request_Req request) = Returns (bs, err) ->
  exists rsp : PathAddressed.Response,
    PathAddressed.handleServe imports server body
      = match PathAddressed.Marshal imports rsp with
        | inl rspBytes => Returns (rspBytes, None)
        | inr e => Panics (Error e)
        end
    /\ (err = None ->
        PathAddressed.Response_Code rsp = PathAddressed.StatusOK
        /\ PathAddressed.Response_Rsp rsp = bs
        /\ PathAddressed.Response_Err rsp = EmptyString)
    /\ (forall e, err = Some e ->
        PathAddressed.Response_Code rsp = PathAddressed.StatusErr
        /\ PathAddressed.Response_Err rsp = Error e
        /\ PathAddressed.Response_Rsp rsp = []).
Proof.
  intros Hreq Hreg Hcall.
  exists (PathAddressed.wrap_response bs err).
  split; [| split].
  - unfold PathAddressed.handleServe, PathAddressed.wrap.
    rewrite Hreq, Hreg, Hcall.
    destruct (PathAddressed.Marshal imports _); reflexivity.
  - intros ->. repeat split.
  - intros e ->. repeat split.
Qed.

Lemma path_handleServe_envelope_witness :
  exists rsp : PathAddressed.Response,
    PathAddressed.handleServe path_imports (path_server 0 true)
                              (request "/fail" "hi")
      = match Marshal rsp with
        | inl rspBytes => Returns (rspBytes, None)
        | inr e => Panics (Error e)
        end
    /\ PathAddressed.Response_Code rsp = PathAddressed.StatusErr
    /\ PathAddressed.Response_Err rsp = "no such user"%string
    /\ PathAddressed.Response_Rsp rsp = [].
Proof.
  destruct (@path_handleServe_envelope
              path_imports (path_server 0 true) (request "/fail" "hi")
              (PathAddressed.mkRequest "/fail" (bytes_of_string "hi"))
              (fun _ => Returns ([], Some (errors_New "no such user")))
              [] (Some (errors_New "no such user"))
              eq_refl eq_refl eq_refl) as [rsp [Hrun [_ Herr]]].
  exists rsp. split; [exact Hrun |].
  destruct (Herr (errors_New "no such user") eq_refl) as [Hc [He Hr]].
  repeat split; assumption.
Defined.

(** ** The frame of a response *)

(** C10: for a body of more than 65535 bytes, [responseSuccess] and
    [responseStatus] hand the whole body to [WriteSocket] under a header
    whose [Length] is the body length modulo 2^16, which is not the length
    of the body written. *)
Theorem response_length_wraps (body : bytes) :
  65535 < len body ->
  uint16 (len body) = len body mod 2 ^ 16
  /\ uint16 (len body) <> len body
  /\ (forall h : Header,
        PathAddressed.responseSuccess h body
        = WriteSocket (mkHeader (Magic h) (Version h) 0 (uint16 (len body)))
                      body)
  /\ (forall (imports : PathAddressed.Imports) (status : Status),
        bytes_of_string (Status_Error status) = body ->
        PathAddressed.responseStatus imports status
        = WriteSocket (mkHeader (PathAddressed.DefaultMagic imports)
                                (PathAddressed.DefaultVersion imports)
                                (Status_Code status) (uint16 (len body)))
                      body).
Proof.
  intros Hbig. repeat split.
  - now apply uint16_large.
  - intros imports status <-. reflexivity.
Qed.

Lemma response_length_wraps_witness :
  65535 < len long_body
  /\ uint16 (len long_body) = 0
  /\ PathAddressed.responseSuccess (request_header 0 2) long_body
     = WriteSocket (mkHeader 9527 1 0 0) long_body.
Proof.
  assert (Hbig : 65535 < len long_body) by (rewrite len_long_body; lia).
  assert (Hz : uint16 (len long_body) = 0)
    by (rewrite len_long_body; reflexivity).
  split; [exact Hbig | split; [exact Hz |]].
  destruct (response_length_wraps _ Hbig) as [_ [_ [Hsuccess _]]].
  rewrite (Hsuccess (request_header 0 2)), Hz. reflexivity.
Defined.

(** ** Running a turn of the loop *)

Arguments bind {S A B} m k s /.
Arguments ret {S A} a s /.
Arguments panic {S A} v s /.
Arguments out_of_fuel {S A} s /.
Arguments when {S} cond m /.
Arguments emit {R W} e w /.
Arguments SetReadDeadline {R W} d /.
Arguments SetWriteDeadline {R W} d /.
Arguments Peek {R W} n w /.
Arguments ReadSocket {R W} w /.
Arguments WriteSocket {R W} h body w /.
Arguments run_call {S A} c /.

Ltac unfold_path :=
  unfold PathAddressed.serve, PathAddressed.serve_body;
  cbn [PathAddressed.serve_loop];
  unfold PathAddressed.loop_body, PathAddressed.waitNext_call,
    PathAddressed.after_wait, PathAddressed.keepAlive,
    PathAddressed.responseSuccess, PathAddressed.responseStatus,
    PathAddressed.Close,
    PathAddressed.start_events, PathAddressed.wait_events,
    PathAddressed.read_events, PathAddressed.write_deadline_events,
    PathAddressed.write_events, PathAddressed.close_events,
    PathAddressed.peek_events, PathAddressed.idle_deadline.

Ltac unfold_code :=
  unfold CodeAddressed.serve, CodeAddressed.serve_body;
  cbn [CodeAddressed.serve_loop];
  unfold CodeAddressed.loop_body, CodeAddressed.wait_then, CodeAddressed.waitNext,
    CodeAddressed.responseError, CodeAddressed.Close,
    CodeAddressed.start_events, CodeAddressed.read_events,
    CodeAddressed.write_deadline_events, CodeAddressed.close_events,
    CodeAddressed.peek_events.

(** The trace is built by appending one event at a time. *)
Ltac flatten_trace := cbn; repeat (rewrite <- app_assoc; cbn).

(** The success frame of the path-addressed loop: what a turn does from the
    wait to the write, when dispatch returns a marshalled envelope. *)
Lemma path_turn_success
  (imports : PathAddressed.Imports) (server : PathAddressed.Server)
  (again : M PathAddressed.World error)
  (ps : list (option error)) (h : Header) (body : bytes)
  (rs : list PathAddressed.read_result) (ws : list PathAddressed.write_result)
  (t : list event) (rspBytes : bytes) :
  PathAddressed.handleServe imports server body = Returns (rspBytes, None) ->
  PathAddressed.loop_body imports server again
    (mkWorld (None :: ps) (PathAddressed.ReadOk h body :: rs) ws t)
  = (wr <- WriteSocket (mkHeader (Magic h) (Version h) 0
                                 (uint16 (len rspBytes))) rspBytes ;;
     emit EvWriteHistUpdate ;;
     match wr with
     | (true, Some err) => ret err
     | _ => PathAddressed.keepAlive imports server again
     end)
      (mkWorld ps rs ws
               (t ++ PathAddressed.wait_events server
                  ++ PathAddressed.read_events server
                  ++ PathAddressed.write_deadline_events server)).
Proof.
  intros H. unfold_path. cbn.
  destruct (negb (PathAddressed.idleTimeout server =? 0)),
           (negb (PathAddressed.ReadTimeout server =? 0)),
           (negb (PathAddressed.WriteTimeout server =? 0));
    cbn; rewrite H; flatten_trace; reflexivity.
Qed.

(** The same for a status: the frame is made by [responseStatus]. *)
Lemma path_turn_status
  (imports : PathAddressed.Imports) (server : PathAddressed.Server)
  (again : M PathAddressed.World error)
  (ps : list (option error)) (h : Header) (body : bytes)
  (rs : list PathAddressed.read_result) (ws : list PathAddressed.write_result)
  (t : list event) (rspBytes : bytes) (status : Status) :
  PathAddressed.handleServe imports server body
    = Returns (rspBytes, Some status) ->
  PathAddressed.loop_body imports server again
    (mkWorld (None :: ps) (PathAddressed.ReadOk h body :: rs) ws t)
  = (wr <- WriteSocket
             (mkHeader (PathAddressed.DefaultMagic imports)
                       (PathAddressed.DefaultVersion imports)
                       (Status_Code status)
                       (uint16 (len (bytes_of_string (Status_Error status)))))
             (bytes_of_string (Status_Error status)) ;;
     emit EvWriteHistUpdate ;;
     match wr with
     | (true, Some err) => ret err
     | _ => PathAddressed.keepAlive imports server again
     end)
      (mkWorld ps rs ws
               (t ++ PathAddressed.wait_events server
                  ++ PathAddressed.read_events server
                  ++ PathAddressed.write_deadline_events server)).
Proof.
  intros H. unfold_path. cbn.
  destruct (negb (PathAddressed.idleTimeout server =? 0)),
           (negb (PathAddressed.ReadTimeout server =? 0)),
           (negb (PathAddressed.WriteTimeout server =? 0));
    cbn; rewrite H; flatten_trace; reflexivity.
Qed.

(** The code-addressed loop, from the read to the write of the response of
    a registered handler. *)
Lemma code_turn_success
  (imports : CodeAddressed.Imports) (server : CodeAddressed.Server)
  (again : M CodeAddressed.World unit)
  (ps : list (option error)) (h : Header) (body : bytes)
  (rs : list CodeAddressed.read_result) (ws : list CodeAddressed.write_result)
  (t : list event) (rspBytes : bytes) :
  CodeAddressed.handleServe server h body = Returns (rspBytes, true) ->
  CodeAddressed.loop_body imports server again
    (mkWorld ps (CodeAddressed.ReadOk h body :: rs) ws t)
  = (err <- WriteSocket (mkHeader (Magic h) (Version h) 0
                                  (uint16 (len rspBytes))) rspBytes ;;
     match err with
     | Some _ => ret tt
     | None =>
         if negb (CodeAddressed.doKeepAlives server) then ret tt
         else CodeAddressed.wait_then imports server again
     end)
      (mkWorld ps rs ws
               (t ++ CodeAddressed.read_events server
                  ++ CodeAddressed.write_deadline_events server)).
Proof.
  intros H. unfold_code. cbn.
  destruct (negb (CodeAddressed.ReadTimeout server =? 0)),
           (negb (CodeAddressed.WriteTimeout server =? 0));
    cbn; rewrite H; flatten_trace; reflexivity.
Qed.

(** The code-addressed loop when no handler is registered for the code. *)
Lemma code_turn_invalid_action
  (imports : CodeAddressed.Imports) (server : CodeAddressed.Server)
  (again : M CodeAddressed.World unit)
  (ps : list (option error)) (h : Header) (body : bytes)
  (rs : list CodeAddressed.read_result) (ws : list CodeAddressed.write_result)
  (t : list event) :
  CodeAddressed.getHandler server (Code h) = None ->
  CodeAddressed.loop_body imports server again
    (mkWorld ps (CodeAddressed.ReadOk h body :: rs) ws t)
  = (err <- WriteSocket
              (mkHeader (CodeAddressed.DefaultMagic imports)
                        (CodeAddressed.DefaultVersion imports)
                        (CodeAddressed.CodeInvalidAction imports)
                        (uint16 (len (bytes_of_string "invalid action"))))
              (bytes_of_string "invalid action") ;;
     match err with
     | Some _ => ret tt
     | None => CodeAddressed.wait_then imports server again
     end)
      (mkWorld ps rs ws
               (t ++ CodeAddressed.read_events server
                  ++ CodeAddressed.write_deadline_events server)).
Proof.
  intros H. unfold_code. unfold CodeAddressed.handleServe. cbn.
  destruct (negb (CodeAddressed.ReadTimeout server =? 0)),
           (negb (CodeAddressed.WriteTimeout server =? 0));
    cbn; rewrite H; flatten_trace; reflexivity.
Qed.

(** C8, as the code has it: for every dispatched request, in both
    conventions, the response frame handed to [WriteSocket] echoes the
    request header with [Code] 0 and with [Length] the byte length of the
    body written, reduced modulo 2^16; the two are equal for every body of at
    most 65535 bytes. *)
Theorem success_frame_header :
  (forall (imports : PathAddressed.Imports) (server : PathAddressed.Server)
          (fuel : nat) (ps : list (option error)) (h : Header) (body : bytes)
          (rs : list PathAddressed.read_result)
          (ws : list PathAddressed.write_result)
          (t : list event) (rspBytes : bytes),
      PathAddressed.handleServe imports server body
        = Returns (rspBytes, None) ->
      PathAddressed.serve_loop imports server (S fuel)
        (mkWorld (None :: ps) (PathAddressed.ReadOk h body :: rs) ws t)
      = (wr <- WriteSocket (mkHeader (Magic h) (Version h) 0
                                     (len rspBytes mod 2 ^ 16)) rspBytes ;;
         emit EvWriteHistUpdate ;;
         match wr with
         | (true, Some err) => ret err
         | _ => PathAddressed.keepAlive
                  imports server
                  (PathAddressed.serve_loop imports server fuel)
         end)
          (mkWorld ps rs ws
                   (t ++ PathAddressed.wait_events server
                      ++ PathAddressed.read_events server
                      ++ PathAddressed.write_deadline_events server)))
  /\ (forall (imports : CodeAddressed.Imports) (server : CodeAddressed.Server)
             (fuel : nat) (ps : list (option error)) (h : Header)
             (body : bytes) (rs : list CodeAddressed.read_result)
             (ws : list CodeAddressed.write_result)
             (t : list event) (rspBytes : bytes),
      CodeAddressed.handleServe server h body = Returns (rspBytes, true) ->
      CodeAddressed.serve_loop imports server (S fuel)
        (mkWorld ps (CodeAddressed.ReadOk h body :: rs) ws t)
      = (err <- WriteSocket (mkHeader (Magic h) (Version h) 0
                                      (len rspBytes mod 2 ^ 16)) rspBytes ;;
         match err with
         | Some _ => ret tt
         | None =>
             if negb (CodeAddressed.doKeepAlives server) then ret tt
             else CodeAddressed.wait_then
                    imports server
                    (CodeAddressed.serve_loop imports server fuel)
         end)
          (mkWorld ps rs ws
                   (t ++ CodeAddressed.read_events server
                      ++ CodeAddressed.write_deadline_events server)))
  /\ (forall rspBytes : bytes,
      len rspBytes <= 65535 -> len rspBytes mod 2 ^ 16 = len rspBytes).
Proof.
  split; [| split].
  - intros imports server fuel ps h body rs ws t rspBytes H.
    exact (path_turn_success imports server
             (PathAddressed.serve_loop imports server fuel)
             ps h body rs ws t rspBytes H).
  - intros imports server fuel ps h body rs ws t rspBytes H.
    exact (code_turn_success imports server
             (CodeAddressed.serve_loop imports server fuel)
             ps h body rs ws t rspBytes H).
  - intros rspBytes H. apply uint16_small.
    pose proof (len_nonneg _ rspBytes). lia.
Qed.

Lemma success_frame_header_witness :
  PathAddressed.serve_loop path_imports (path_server 0 true) 2
    (mkWorld [None] [path_read "/echo" "hi"] [(false, None)] [])
  = Blocked
      (mkWorld [] [] []
         [EvSetReadDeadline NoDeadline; EvPeek 1; EvSetReadDeadline NoDeadline;
          EvReadSocket; EvReadHistUpdate;
          EvWriteSocket (mkHeader 9527 1 0 3) (x00 :: bytes_of_string "hi");
          EvWriteHistUpdate;
          EvSetReadDeadline NoDeadline; EvPeek 1])
  /\ len (x00 :: bytes_of_string "hi") mod 2 ^ 16
     = len (x00 :: bytes_of_string "hi").
Proof.
  destruct success_frame_header as [Hpath [_ Hsmall]].
  split.
  - exact (Hpath path_imports (path_server 0 true) 1%nat []
                 (request_header 0 (len (request "/echo" "hi")))
                 (request "/echo" "hi") [] [(false, None)] []
                 (x00 :: bytes_of_string "hi") eq_refl).
  - apply Hsmall. vm_compute. discriminate.
Defined.

(** C8 fails for a long body: the handler of code 2 returns 65536 bytes, and
    the frame written carries [Length] 0 with that body. *)
Lemma success_frame_length_differs :
  match CodeAddressed.serve_call code_imports (code_server 5 false)
          (mkWorld [] [code_read 2 "hi"] [None] [])
  with
  | Ok _ w' =>
      filter is_WriteSocket (trace w')
      = [EvWriteSocket (mkHeader 9527 1 0 0) long_body]
      /\ Length (mkHeader 9527 1 0 0) <> len long_body
  | _ => False
  end.
Proof.
  unfold CodeAddressed.serve_call. unfold_code. cbn.
  fold (len long_body). rewrite len_long_body.
  split; [reflexivity | discriminate].
Qed.

(** ** Requests that cannot be dispatched (path-addressed) *)

(** What [handleServe] answers to a body that is no envelope, or whose path
    is not registered. *)
Lemma path_handleServe_status
  (imports : PathAddressed.Imports) (server : PathAddressed.Server)
  (body : bytes) (status : Status) :
  (PathAddressed.Unmarshal imports body = None
   /\ status = PathAddressed.StatusInvalidRequest imports)
  \/ (exists request : PathAddressed.Request,
        PathAddressed.Unmarshal imports body = Some request
        /\ PathAddressed.getHandler server (PathAddressed.Request_Path request)
           = None
        /\ status = PathAddressed.StatusInvalidPath imports) ->
  PathAddressed.handleServe imports server body = Returns ([], Some status).
Proof.
  unfold PathAddressed.handleServe.
  intros [[Hbad ->] | [request [Hreq [Hnone ->]]]].
  - now rewrite Hbad.
  - now rewrite Hreq, Hnone.
Qed.

(** C2, as the code has it: for a request whose body is no envelope or
    whose path has no handler, the server writes a frame whose header
    carries the code of the status ([StatusInvalidRequest] or
    [StatusInvalidPath]) and whose body is the raw text of the status, not a
    marshalled [Response]; when that write does not fail as broken and
    keep-alive is enabled, the loop goes on to its next turn on the rest of
    the stream. *)
Theorem path_status_response
  (imports : PathAddressed.Imports) (server : PathAddressed.Server)
  (fuel : nat) (ps : list (option error)) (h : Header) (body : bytes)
  (rs : list PathAddressed.read_result)
  (wr : PathAddressed.write_result) (ws : list PathAddressed.write_result)
  (t : list event) (status : Status) :
  (PathAddressed.Unmarshal imports body = None
   /\ status = PathAddressed.StatusInvalidRequest imports)
  \/ (exists request : PathAddressed.Request,
        PathAddressed.Unmarshal imports body = Some request
        /\ PathAddressed.getHandler server (PathAddressed.Request_Path request)
           = None
        /\ status = PathAddressed.StatusInvalidPath imports) ->
  (forall err : error, wr <> (true, Some err)) ->
  PathAddressed.doKeepAlives server = true ->
  PathAddressed.serve_loop imports server (S fuel)
    (mkWorld (None :: ps) (PathAddressed.ReadOk h body :: rs) (wr :: ws) t)
  = PathAddressed.serve_loop imports server fuel
      (mkWorld ps rs ws
         (t ++ PathAddressed.wait_events server
            ++ PathAddressed.read_events server
            ++ PathAddressed.write_deadline_events server
            ++ [EvWriteSocket
                  (mkHeader (PathAddressed.DefaultMagic imports)
                            (PathAddressed.DefaultVersion imports)
                            (Status_Code status)
                            (uint16 (len (bytes_of_string
                                            (Status_Error status)))))
                  (bytes_of_string (Status_Error status));
                EvWriteHistUpdate])).
Proof.
  intros Hstatus Hwr Hkeep.
  apply path_handleServe_status in Hstatus.
  change (PathAddressed.serve_loop imports server (S fuel))
    with (PathAddressed.loop_body imports server
            (PathAddressed.serve_loop imports server fuel)).
  rewrite (path_turn_status _ _ _ _ _ _ _ _ _ _ _ Hstatus).
  unfold PathAddressed.keepAlive. rewrite Hkeep.
  destruct wr as [[|] [err|]]; flatten_trace; try reflexivity.
  now destruct (Hwr err).
Qed.

(** On the sample stream a request for [/missing] is answered with the
    status frame, and the request for [/echo] that follows is served. *)
Lemma path_status_response_witness :
  PathAddressed.serve_loop path_imports (path_server 0 true) 3
    (two_requests "/missing")
  = Blocked
      (mkWorld [] [] []
         [EvSetReadDeadline NoDeadline; EvPeek 1; EvSetReadDeadline NoDeadline;
          EvReadSocket; EvReadHistUpdate;
          EvWriteSocket (mkHeader 9527 1 404 12)
                        (bytes_of_string "invalid path");
          EvWriteHistUpdate;
          EvSetReadDeadline NoDeadline; EvPeek 1; EvSetReadDeadline NoDeadline;
          EvReadSocket; EvReadHistUpdate;
          EvWriteSocket (mkHeader 9527 1 0 3) (x00 :: bytes_of_string "hi");
          EvWriteHistUpdate;
          EvSetReadDeadline NoDeadline; EvPeek 1]).
Proof.
  refine (eq_trans
            (path_status_response
               path_imports (path_server 0 true) 2 [None]
               (request_header 0 (len (request "/missing" "hi")))
               (request "/missing" "hi")
               [path_read "/echo" "hi"] (false, None) [(false, None)] []
               (mkStatus 404 "invalid path") _ _ eq_refl) _).
  - right. exists (PathAddressed.mkRequest "/missing" (bytes_of_string "hi")).
    repeat split.
  - intros err. discriminate.
  - reflexivity.
Defined.

(** C2 fails when keep-alive is disabled: the request for [/missing] is
    answered with the status frame (header code 404, the raw text as body),
    then the connection is closed and the request that follows is never
    read.  The body of that frame is the text itself: under the sample codec
    no envelope marshals to it. *)
Lemma path_status_response_then_close :
  PathAddressed.serve_call path_imports (path_server 0 false)
    (two_requests "/missing")
  = Ok tt
      (mkWorld [None] [path_read "/echo" "hi"] [(false, None)]
         [EvGetBufReader; EvGetBufWriter;
          EvSetReadDeadline NoDeadline; EvSetWriteDeadline NoDeadline;
          EvSetReadDeadline NoDeadline; EvPeek 1; EvSetReadDeadline NoDeadline;
          EvReadSocket; EvReadHistUpdate;
          EvWriteSocket (mkHeader 9527 1 404 12)
                        (bytes_of_string "invalid path");
          EvWriteHistUpdate;
          EvPrintClose (errors_New "no keep alive");
          EvRwcClose; EvPutBufReader; EvPutBufWriter; EvConnsHistDec])
  /\ (forall rsp : PathAddressed.Response,
        PathAddressed.Marshal path_imports rsp
        <> inl (bytes_of_string "invalid path")).
Proof.
  split; [reflexivity |].
  intros rsp. cbn. unfold Marshal.
  destruct (PathAddressed.Response_Code rsp); discriminate.
Qed.

(** ** The keep-alive decision *)

(** When the body of [serve] returns, the deferred calls close the
    connection with the [closeErr] it returned with. *)
Lemma path_serve_return
  (imports : PathAddressed.Imports) (server : PathAddressed.Server)
  (fuel : nat) (w w1 : PathAddressed.World) (closeErr : error) :
  PathAddressed.serve_body imports server fuel w = Ok closeErr w1 ->
  PathAddressed.serve imports server fuel w
  = Ok tt (mkWorld (peeks w1) (reads w1) (writes w1)
                   (trace w1 ++ PathAddressed.close_events closeErr
                             ++ [EvConnsHistDec])).
Proof.
  intros H. unfold PathAddressed.serve. rewrite H.
  unfold PathAddressed.Close, PathAddressed.close_events.
  flatten_trace. reflexivity.
Qed.

Lemma code_serve_return
  (imports : CodeAddressed.Imports) (server : CodeAddressed.Server)
  (fuel : nat) (w w1 : CodeAddressed.World) :
  CodeAddressed.serve_body imports server fuel w = Ok tt w1 ->
  CodeAddressed.serve imports server fuel w
  = Ok tt (mkWorld (peeks w1) (reads w1) (writes w1)
                   (trace w1 ++ CodeAddressed.close_events)).
Proof.
  intros H. unfold CodeAddressed.serve. rewrite H.
  unfold CodeAddressed.Close, CodeAddressed.close_events.
  flatten_trace. reflexivity.
Qed.

(** Where the loops do take the keep-alive decision: after the write of a
    status or of a dispatched response in the path-addressed loop, and after
    the write of a dispatched response in the code-addressed loop.  With
    keep-alive disabled the loop returns (path-addressed: with
    [ErrNoKeepAlive]) and leaves the rest of the stream unread; otherwise
    its next call is [waitNext].  When the body of [serve] returns, the
    deferred calls close the connection. *)
Theorem keep_alive_decision :
  (forall (imports : PathAddressed.Imports) (server : PathAddressed.Server)
          (fuel : nat) (ps : list (option error)) (h : Header) (body : bytes)
          (rs : list PathAddressed.read_result) (broken : bool)
          (ws : list PathAddressed.write_result) (t : list event)
          (rspBytes : bytes) (status : option Status),
      PathAddressed.handleServe imports server body
        = Returns (rspBytes, status) ->
      let frame :=
        match status with
        | Some st =>
            EvWriteSocket
              (mkHeader (PathAddressed.DefaultMagic imports)
                        (PathAddressed.DefaultVersion imports)
                        (Status_Code st)
                        (uint16 (len (bytes_of_string (Status_Error st)))))
              (bytes_of_string (Status_Error st))
        | None =>
            EvWriteSocket
              (mkHeader (Magic h) (Version h) 0 (uint16 (len rspBytes)))
              rspBytes
        end in
      let w' :=
        mkWorld ps rs ws
          (t ++ PathAddressed.wait_events server
             ++ PathAddressed.read_events server
             ++ PathAddressed.write_deadline_events server
             ++ [frame; EvWriteHistUpdate]) in
      PathAddressed.serve_loop imports server (S (S fuel))
        (mkWorld (None :: ps) (PathAddressed.ReadOk h body :: rs)
                 ((broken, None) :: ws) t)
      = if PathAddressed.doKeepAlives server
        then (werr <- PathAddressed.waitNext_call server ;;
              PathAddressed.after_wait
                imports server
                (PathAddressed.serve_loop imports server fuel) werr) w'
        else Ok (PathAddressed.ErrNoKeepAlive imports) w')
  /\ (forall (imports : CodeAddressed.Imports) (server : CodeAddressed.Server)
             (fuel : nat) (ps : list (option error)) (h : Header)
             (body : bytes) (rs : list CodeAddressed.read_result)
             (ws : list CodeAddressed.write_result) (t : list event)
             (rspBytes : bytes),
      CodeAddressed.handleServe server h body = Returns (rspBytes, true) ->
      let w' :=
        mkWorld ps rs ws
          (t ++ CodeAddressed.read_events server
             ++ CodeAddressed.write_deadline_events server
             ++ [EvWriteSocket
                   (mkHeader (Magic h) (Version h) 0 (uint16 (len rspBytes)))
                   rspBytes]) in
      CodeAddressed.serve_loop imports server (S fuel)
        (mkWorld ps (CodeAddressed.ReadOk h body :: rs) (None :: ws) t)
      = if CodeAddressed.doKeepAlives server
        then (next <- CodeAddressed.waitNext imports server ;;
              if negb next then ret tt
              else CodeAddressed.serve_loop imports server fuel) w'
        else Ok tt w')
  /\ (forall (imports : PathAddressed.Imports) (server : PathAddressed.Server)
             (fuel : nat) (w w1 : PathAddressed.World) (closeErr : error),
      PathAddressed.serve_body imports server fuel w = Ok closeErr w1 ->
      PathAddressed.serve imports server fuel w
      = Ok tt (mkWorld (peeks w1) (reads w1) (writes w1)
                 (trace w1 ++ PathAddressed.close_events closeErr
                           ++ [EvConnsHistDec])))
  /\ (forall (imports : CodeAddressed.Imports) (server : CodeAddressed.Server)
             (fuel : nat) (w w1 : CodeAddressed.World),
      CodeAddressed.serve_body imports server fuel w = Ok tt w1 ->
      CodeAddressed.serve imports server fuel w
      = Ok tt (mkWorld (peeks w1) (reads w1) (writes w1)
                 (trace w1 ++ CodeAddressed.close_events))).
Proof.
  split; [| split; [| split]].
  - intros imports server fuel ps h body rs broken ws t rspBytes status H.
    change (PathAddressed.serve_loop imports server (S (S fuel)))
      with (PathAddressed.loop_body imports server
              (PathAddressed.loop_body imports server
                 (PathAddressed.serve_loop imports server fuel))).
    destruct status as [st|].
    + rewrite (path_turn_status _ _ _ _ _ _ _ _ _ _ _ H).
      unfold PathAddressed.keepAlive.
      destruct (PathAddressed.doKeepAlives server), broken;
        flatten_trace; reflexivity.
    + rewrite (path_turn_success _ _ _ _ _ _ _ _ _ _ H).
      unfold PathAddressed.keepAlive.
      destruct (PathAddressed.doKeepAlives server), broken;
        flatten_trace; reflexivity.
  - intros imports server fuel ps h body rs ws t rspBytes H.
    change (CodeAddressed.serve_loop imports server (S fuel))
      with (CodeAddressed.loop_body imports server
              (CodeAddressed.serve_loop imports server fuel)).
    rewrite (code_turn_success _ _ _ _ _ _ _ _ _ _ H).
    destruct (CodeAddressed.doKeepAlives server);
      flatten_trace; reflexivity.
  - exact path_serve_return.
  - exact code_serve_return.
Qed.

(** With keep-alive disabled one request is served and the loop returns,
    although a second request is waiting on the stream. *)
Lemma keep_alive_decision_witness :
  PathAddressed.serve_loop path_imports (path_server 0 false) 2
    (two_requests "/echo")
  = Ok (errors_New "no keep alive")
       (mkWorld [None] [path_read "/echo" "hi"] [(false, None)]
          [EvSetReadDeadline NoDeadline; EvPeek 1;
           EvSetReadDeadline NoDeadline; EvReadSocket; EvReadHistUpdate;
           EvWriteSocket (mkHeader 9527 1 0 3) (x00 :: bytes_of_string "hi");
           EvWriteHistUpdate])
  /\ CodeAddressed.serve_loop code_imports (code_server 5 false) 1
       (code_two_requests 1)
     = Ok tt
          (mkWorld [None] [code_read 1 "hi"] [None]
             [EvReadSocket;
              EvWriteSocket (mkHeader 9527 1 0 2) (bytes_of_string "hi")]).
Proof.
  destruct keep_alive_decision as [Hpath [Hcode _]].
  split.
  - exact (Hpath path_imports (path_server 0 false) 0%nat [None]
                 (request_header 0 (len (request "/echo" "hi")))
                 (request "/echo" "hi")
                 [path_read "/echo" "hi"] false [(false, None)] []
                 (x00 :: bytes_of_string "hi") None eq_refl).
  - exact (Hcode code_imports (code_server 5 false) 0%nat [None]
                 (request_header 1 (len (bytes_of_string "hi")))
                 (bytes_of_string "hi")
                 [code_read 1 "hi"] [None] []
                 (bytes_of_string "hi") eq_refl).
Defined.

(** C6 at its failing input: keep-alive is disabled, and the first request
    carries a code that is not registered.  Its error response is written
    with success, yet the connection is not closed: the loop waits, reads
    the second request and writes a second frame before it returns. *)
Theorem code_error_response_write_keeps_connection :
  CodeAddressed.serve_call
    code_imports (MoreSamples.timed_code_server false) (code_two_requests 7)
  = Ok tt
      (mkWorld [] [] []
         [EvGetBufReader; EvGetBufWriter;
          EvSetReadDeadline (NowPlus 3); EvReadSocket;
          EvSetWriteDeadline (NowPlus 4);
          EvWriteSocket (mkHeader 9527 1 404 14)
                        (bytes_of_string "invalid action");
          EvSetReadDeadline (NowPlus 5); EvPeek 9;
          EvSetReadDeadline NoDeadline;
          EvSetReadDeadline (NowPlus 3); EvReadSocket;
          EvSetWriteDeadline (NowPlus 4);
          EvWriteSocket (mkHeader 9527 1 0 2) (bytes_of_string "hi");
          EvRwcClose; EvPutBufReader; EvPutBufWriter]).
Proof. vm_compute. reflexivity. Qed.

(** ** A handler that panics (path-addressed) *)

(** When the body of [serve] panics, the deferred [recover] logs the panic
    and stops it; the connection is then closed with the default error. *)
Lemma path_serve_panic
  (imports : PathAddressed.Imports) (server : PathAddressed.Server)
  (fuel : nat) (w w1 : PathAddressed.World) (v : string) :
  PathAddressed.serve_body imports server fuel w = Panic v w1 ->
  PathAddressed.serve imports server fuel w
  = Ok tt (mkWorld (peeks w1) (reads w1) (writes w1)
             (trace w1 ++ [EvLogErrorf v]
                ++ PathAddressed.close_events (errors_New "serve default close")
                ++ [EvConnsHistDec])).
Proof.
  intros H. unfold PathAddressed.serve. rewrite H.
  unfold PathAddressed.Close, PathAddressed.close_events.
  flatten_trace. reflexivity.
Qed.

(** [serve] never lets a panic out. *)
Lemma path_serve_no_panic
  (imports : PathAddressed.Imports) (server : PathAddressed.Server)
  (fuel : nat) (w w1 : PathAddressed.World) (v : string) :
  PathAddressed.serve imports server fuel w <> Panic v w1.
Proof.
  unfold PathAddressed.serve.
  destruct (PathAddressed.serve_body imports server fuel w);
    cbn; discriminate.
Qed.

(** C1, as the code has it: when the handler of a request panics, the loop
    is left by the panic before any response is written (nothing is taken
    from the write script and no write event is added); the deferred
    [recover] of [serve] logs the panic and the connection is closed with
    the default close error; no run of [serve] ends in a panic. *)
Theorem path_handler_panic_closes
  (imports : PathAddressed.Imports) (server : PathAddressed.Server)
  (fuel : nat) (ps : list (option error)) (h : Header) (body : bytes)
  (rs : list PathAddressed.read_result) (ws : list PathAddressed.write_result)
  (t : list event) (request : PathAddressed.Request)
  (handler : PathAddressed.Handler) (v : string) :
  PathAddressed.Unmarshal imports body = Some request ->
  PathAddressed.getHandler server (PathAddressed.Request_Path request)
    = Some handler ->
  handler (PathAddressed.Request_Req request) = Panics v ->
  PathAddressed.serve_loop imports server (S fuel)
    (mkWorld (None :: ps) (PathAddressed.ReadOk h body :: rs) ws t)
  = Panic v
      (mkWorld ps rs ws
         (t ++ PathAddressed.wait_events server
            ++ PathAddressed.read_events server
            ++ PathAddressed.write_deadline_events server))
  /\ PathAddressed.serve imports server (S fuel)
       (mkWorld (None :: ps) (PathAddressed.ReadOk h body :: rs) ws t)
     = Ok tt
         (mkWorld ps rs ws
            (t ++ PathAddressed.start_events server
               ++ PathAddressed.wait_events server
               ++ PathAddressed.read_events server
               ++ PathAddressed.write_deadline_events server
               ++ [EvLogErrorf v]
               ++ PathAddressed.close_events
                    (errors_New "serve default close")
               ++ [EvConnsHistDec]))
  /\ (forall (fuel' : nat) (w w1 : PathAddressed.World) (v' : string),
        PathAddressed.serve imports server fuel' w <> Panic v' w1).
Proof.
  intros Hreq Hreg Hcall.
  assert (Hserve : PathAddressed.handleServe imports server body = Panics v).
  { unfold PathAddressed.handleServe. now rewrite Hreq, Hreg, Hcall. }
  assert (Hturn : forall t',
    PathAddressed.serve_loop imports server (S fuel)
      (mkWorld (None :: ps) (PathAddressed.ReadOk h body :: rs) ws t')
    = Panic v
        (mkWorld ps rs ws
           (t' ++ PathAddressed.wait_events server
               ++ PathAddressed.read_events server
               ++ PathAddressed.write_deadline_events server))).
  { intros t'. cbn [PathAddressed.serve_loop]. unfold_path. cbn.
    destruct (negb (PathAddressed.idleTimeout server =? 0)),
             (negb (PathAddressed.ReadTimeout server =? 0)),
             (negb (PathAddressed.WriteTimeout server =? 0));
      cbn; rewrite Hserve; flatten_trace; reflexivity. }
  split; [apply Hturn | split].
  - rewrite (path_serve_panic imports server (S fuel) _
               (mkWorld ps rs ws
                  ((t ++ PathAddressed.start_events server)
                     ++ PathAddressed.wait_events server
                     ++ PathAddressed.read_events server
                     ++ PathAddressed.write_deadline_events server)) v).
    + cbn [peeks reads writes trace]. rewrite <- !app_assoc. reflexivity.
    + unfold PathAddressed.serve_body, PathAddressed.start_events.
      destruct (PathAddressed.ReadTimeout server =? 0) eqn:Hr,
               (PathAddressed.WriteTimeout server =? 0) eqn:Hw;
        cbn -[PathAddressed.serve_loop]; rewrite <- Hturn;
        f_equal; f_equal; flatten_trace; reflexivity.
  - intros fuel' w w1 v'. apply path_serve_no_panic.
Qed.

Lemma path_handler_panic_closes_witness :
  PathAddressed.serve path_imports (path_server 0 true) 3
    (two_requests "/panic")
  = Ok tt
      (mkWorld [None] [path_read "/echo" "hi"] [(false, None); (false, None)]
         [EvGetBufReader; EvGetBufWriter;
          EvSetReadDeadline NoDeadline; EvSetWriteDeadline NoDeadline;
          EvSetReadDeadline NoDeadline; EvPeek 1; EvSetReadDeadline NoDeadline;
          EvReadSocket; EvReadHistUpdate;
          EvLogErrorf "nil pointer dereference";
          EvPrintClose (errors_New "serve default close");
          EvRwcClose; EvPutBufReader; EvPutBufWriter; EvConnsHistDec]).
Proof.
  exact (proj1 (proj2
           (path_handler_panic_closes
              path_imports (path_server 0 true) 2 [None]
              (request_header 0 (len (request "/panic" "hi")))
              (request "/panic" "hi")
              [path_read "/echo" "hi"] [(false, None); (false, None)] []
              (PathAddressed.mkRequest "/panic" (bytes_of_string "hi"))
              (fun _ => Panics "nil pointer dereference")
              "nil pointer dereference" eq_refl eq_refl eq_refl))).
Defined.

(** C1 fails: with keep-alive enabled and every write bound to succeed, the
    panic of the handler of [/panic] ends the connection; no frame at all
    is written and the stream is closed in the same cycle. *)
Lemma path_handler_panic_no_response :
  match PathAddressed.serve_call path_imports (path_server 0 true)
          (two_requests "/panic")
  with
  | Ok _ w' =>
      filter is_WriteSocket (trace w') = []
      /\ writes w' = [(false, None); (false, None)]
      /\ filter is_RwcClose (trace w') = [EvRwcClose]
  | _ => False
  end.
Proof. vm_compute. repeat split. Qed.

(** ** Waiting for the next message *)

(** C5, as the code has it: in [waitNext] only a peek that fails with
    [io.EOF] makes the loop arm the deadline and peek again; any other peek
    error, and so the timeout of the read deadline, makes [waitNext] return
    an error, with which [serve] closes the connection. *)
Theorem path_waitNext_peek_error
  (imports : PathAddressed.Imports) (server : PathAddressed.Server)
  (fuel : nat) (e : error) (ps : list (option error))
  (rs : list PathAddressed.read_result) (ws : list PathAddressed.write_result)
  (t : list event) :
  PathAddressed.waitNext server (S fuel) (mkWorld (Some e :: ps) rs ws t)
  = (if is_EOF e
     then PathAddressed.waitNext server fuel
            (mkWorld ps rs ws (t ++ PathAddressed.peek_events server))
     else Ok (Some (errors_New ("serve wait peek err : " ++ Error e)))
             (mkWorld ps rs ws (t ++ PathAddressed.peek_events server)))
  /\ is_EOF net_timeout = false
  /\ PathAddressed.serve imports server (S fuel)
       (mkWorld (Some net_timeout :: ps) rs ws t)
     = Ok tt
         (mkWorld ps rs ws
            (t ++ PathAddressed.start_events server
               ++ PathAddressed.peek_events server
               ++ PathAddressed.close_events
                    (errors_New "serve wait peek err : i/o timeout")
               ++ [EvConnsHistDec])).
Proof.
  split; [| split].
  - unfold_path. cbn.
    destruct (negb (PathAddressed.idleTimeout server =? 0)), e;
      flatten_trace; reflexivity.
  - reflexivity.
  - unfold_path. cbn.
    destruct (PathAddressed.ReadTimeout server =? 0),
             (PathAddressed.WriteTimeout server =? 0),
             (negb (PathAddressed.idleTimeout server =? 0));
      flatten_trace; reflexivity.
Qed.

(** C5 fails: with an idle timeout of 5 and no data, the deadline fires in
    the first peek and the connection is closed after that one peek. *)
Lemma path_idle_timeout_closes :
  PathAddressed.serve_call path_imports (path_server 5 true) idle_then_timeout
  = Ok tt
      (mkWorld [] [] []
         [EvGetBufReader; EvGetBufWriter;
          EvSetReadDeadline NoDeadline; EvSetWriteDeadline NoDeadline;
          EvSetReadDeadline (NowPlus 5); EvPeek 1;
          EvPrintClose (errors_New "serve wait peek err : i/o timeout");
          EvRwcClose; EvPutBufReader; EvPutBufWriter; EvConnsHistDec]).
Proof. reflexivity. Qed.

(** With an idle timeout of zero the path-addressed [waitNext] arms no
    deadline, and with nothing on the stream it stays blocked in [Peek]. *)
Lemma path_waitNext_no_deadline
  (server : PathAddressed.Server) (fuel : nat)
  (rs : list PathAddressed.read_result) (ws : list PathAddressed.write_result)
  (t : list event) :
  PathAddressed.idleTimeout server = 0 ->
  PathAddressed.waitNext server (S fuel) (mkWorld [] rs ws t)
  = Blocked (mkWorld [] rs ws (t ++ [EvSetReadDeadline NoDeadline; EvPeek 1])).
Proof.
  intros H. cbn. rewrite H. flatten_trace. reflexivity.
Qed.

(** With an idle timeout of zero the code-addressed [waitNext] answers
    [false] at once, whatever the stream holds. *)
Lemma code_waitNext_zero_idle
  (imports : CodeAddressed.Imports) (server : CodeAddressed.Server)
  (w : CodeAddressed.World) :
  CodeAddressed.idleTimeout server = 0 ->
  CodeAddressed.waitNext imports server w = Ok false w.
Proof.
  intros H. unfold CodeAddressed.waitNext. rewrite H. reflexivity.
Qed.

(** C3 at its failing input: a code-addressed server with keep-alive
    enabled and an idle timeout of zero serves the first request and then
    closes the connection, without a peek, while a second request is
    waiting. *)
Theorem code_zero_idle_timeout_closes :
  CodeAddressed.serve_call code_imports (code_server 0 true)
    (code_two_requests 1)
  = Ok tt
      (mkWorld [None] [code_read 1 "hi"] [None]
         [EvGetBufReader; EvGetBufWriter;
          EvSetReadDeadline NoDeadline; EvSetWriteDeadline NoDeadline;
          EvReadSocket;
          EvWriteSocket (mkHeader 9527 1 0 2) (bytes_of_string "hi");
          EvRwcClose; EvPutBufReader; EvPutBufWriter]).
Proof. reflexivity. Qed.

(** ** An unregistered code (code-addressed) *)

(** After the error response of an unregistered code the loop goes to
    [waitNext] whatever [doKeepAlives] answers. *)
Lemma code_invalid_action_waits
  (imports : CodeAddressed.Imports) (server : CodeAddressed.Server)
  (fuel : nat) (ps : list (option error)) (h : Header) (body : bytes)
  (rs : list CodeAddressed.read_result) (ws : list CodeAddressed.write_result)
  (t : list event) :
  CodeAddressed.getHandler server (Code h) = None ->
  CodeAddressed.serve_loop imports server (S fuel)
    (mkWorld ps (CodeAddressed.ReadOk h body :: rs) (None :: ws) t)
  = CodeAddressed.wait_then imports server
      (CodeAddressed.serve_loop imports server fuel)
      (mkWorld ps rs ws
         (t ++ CodeAddressed.read_events server
            ++ CodeAddressed.write_deadline_events server
            ++ [EvWriteSocket
                  (mkHeader (CodeAddressed.DefaultMagic imports)
                            (CodeAddressed.DefaultVersion imports)
                            (CodeAddressed.CodeInvalidAction imports)
                            14)
                  (bytes_of_string "invalid action")])).
Proof.
  intros H.
  change (CodeAddressed.serve_loop imports server (S fuel))
    with (CodeAddressed.loop_body imports server
            (CodeAddressed.serve_loop imports server fuel)).
  rewrite (code_turn_invalid_action _ _ _ _ _ _ _ _ _ H).
  flatten_trace. reflexivity.
Qed.

(** C7 at its failing input: keep-alive is disabled and no handler is
    registered for code 7; the error frame is written (header code
    [CodeInvalidAction], the text as body), and the loop still waits for,
    reads and serves the request that follows. *)
Theorem code_invalid_action_ignores_keep_alive :
  CodeAddressed.serve_call code_imports (code_server 5 false)
    (code_two_requests 7)
  = Ok tt
      (mkWorld [] [] []
         [EvGetBufReader; EvGetBufWriter;
          EvSetReadDeadline NoDeadline; EvSetWriteDeadline NoDeadline;
          EvReadSocket;
          EvWriteSocket (mkHeader 9527 1 404 14)
                        (bytes_of_string "invalid action");
          EvSetReadDeadline (NowPlus 5); EvPeek 9;
          EvSetReadDeadline NoDeadline;
          EvReadSocket;
          EvWriteSocket (mkHeader 9527 1 0 2) (bytes_of_string "hi");
          EvRwcClose; EvPutBufReader; EvPutBufWriter]).
Proof. reflexivity. Qed.

(** ** Closing the connection *)

Section KeepsBuffers.
Variables R W : Type.

Lemma releases_snoc (t : list event) (e : event) :
  is_release e = false -> releases (t ++ [e]) = releases t.
Proof.
  intros H. unfold releases. rewrite filter_app. cbn. rewrite H.
  apply app_nil_r.
Qed.

Lemma keeps_ret (A : Type) (a : A) : keeps_buffers R W A (ret a).
Proof. intros w. reflexivity. Qed.

Lemma keeps_panic (A : Type) (v : string) : keeps_buffers R W A (panic v).
Proof. intros w. reflexivity. Qed.

Lemma keeps_out_of_fuel (A : Type) : keeps_buffers R W A out_of_fuel.
Proof. intros w. reflexivity. Qed.

Lemma keeps_bind (A B : Type) (m : M (world R W) A)
      (k : A -> M (world R W) B) :
  keeps_buffers R W A m -> (forall a, keeps_buffers R W B (k a)) ->
  keeps_buffers R W B (bind m k).
Proof.
  intros Hm Hk w. specialize (Hm w). cbn.
  destruct (m w) as [a w1 | v w1 | w1 | w1]; try exact Hm.
  specialize (Hk a w1).
  destruct (k a w1); congruence.
Qed.

Lemma keeps_emit (e : event) :
  is_release e = false -> keeps_buffers R W unit (emit e).
Proof. intros H w. cbn. now apply releases_snoc. Qed.

Lemma keeps_when (cond : bool) (m : M (world R W) unit) :
  keeps_buffers R W unit m -> keeps_buffers R W unit (when cond m).
Proof. intros H. destruct cond; [exact H | apply keeps_ret]. Qed.

Lemma keeps_Peek (n : Z) : keeps_buffers R W (option error) (Peek n).
Proof. intros w. cbn. destruct (peeks w); now apply releases_snoc. Qed.

Lemma keeps_ReadSocket : keeps_buffers R W R ReadSocket.
Proof. intros w. cbn. destruct (reads w); now apply releases_snoc. Qed.

Lemma keeps_WriteSocket (h : Header) (body : bytes) :
  keeps_buffers R W W (WriteSocket h body).
Proof. intros w. cbn. destruct (writes w); now apply releases_snoc. Qed.

Lemma keeps_run_call (A : Type) (c : call A) :
  keeps_buffers R W A (run_call c).
Proof. destruct c; [apply keeps_ret | apply keeps_panic]. Qed.
End KeepsBuffers.

(** Splits a program along its binds and branches. *)
Ltac keeps :=
  repeat first
    [ assumption
    | apply keeps_ret | apply keeps_panic | apply keeps_out_of_fuel
    | apply keeps_Peek | apply keeps_ReadSocket | apply keeps_WriteSocket
    | apply keeps_run_call
    | apply keeps_emit; reflexivity
    | apply keeps_when
    | apply keeps_bind; [| intros ?]
    | match goal with
      | |- keeps_buffers _ _ _ (match ?x with _ => _ end) => destruct x
      end ].

Lemma path_waitNext_keeps (server : PathAddressed.Server) (fuel : nat) :
  keeps_buffers _ _ _ (PathAddressed.waitNext server fuel).
Proof.
  induction fuel as [| fuel IH]; cbn [PathAddressed.waitNext].
  - apply keeps_out_of_fuel.
  - unfold SetReadDeadline. keeps.
Qed.

Lemma path_serve_loop_keeps
  (imports : PathAddressed.Imports) (server : PathAddressed.Server)
  (fuel : nat) :
  keeps_buffers _ _ _ (PathAddressed.serve_loop imports server fuel).
Proof.
  induction fuel as [| fuel IH]; cbn [PathAddressed.serve_loop].
  - apply keeps_out_of_fuel.
  - unfold PathAddressed.loop_body. apply keeps_bind.
    + intros w. apply path_waitNext_keeps.
    + intros werr.
      unfold PathAddressed.after_wait, PathAddressed.keepAlive,
        PathAddressed.responseStatus, PathAddressed.responseSuccess,
        SetReadDeadline, SetWriteDeadline.
      keeps.
Qed.

Lemma path_serve_body_keeps
  (imports : PathAddressed.Imports) (server : PathAddressed.Server)
  (fuel : nat) :
  keeps_buffers _ _ _ (PathAddressed.serve_body imports server fuel).
Proof.
  unfold PathAddressed.serve_body, SetReadDeadline, SetWriteDeadline.
  pose proof (path_serve_loop_keeps imports server fuel). keeps.
Qed.

Lemma code_serve_loop_keeps
  (imports : CodeAddressed.Imports) (server : CodeAddressed.Server)
  (fuel : nat) :
  keeps_buffers _ _ _ (CodeAddressed.serve_loop imports server fuel).
Proof.
  induction fuel as [| fuel IH]; cbn [CodeAddressed.serve_loop].
  - apply keeps_out_of_fuel.
  - unfold CodeAddressed.loop_body, CodeAddressed.wait_then,
      CodeAddressed.waitNext, CodeAddressed.responseError,
      SetReadDeadline, SetWriteDeadline.
    keeps.
Qed.

Lemma code_serve_body_keeps
  (imports : CodeAddressed.Imports) (server : CodeAddressed.Server)
  (fuel : nat) :
  keeps_buffers _ _ _ (CodeAddressed.serve_body imports server fuel).
Proof.
  unfold CodeAddressed.serve_body, SetReadDeadline, SetWriteDeadline.
  pose proof (code_serve_loop_keeps imports server fuel). keeps.
Qed.

(** C4, as the code has it: [Close] has no closed state to test; every call
    closes the stream and hands the reader and the writer back to the pool,
    so a second call releases them a second time.  A run of [serve] calls
    [Close] once, through its deferred call: between its start and its
    return the buffers are released exactly once. *)
Theorem Close_releases_on_every_call :
  (forall (closeErr : error) (w : PathAddressed.World),
      PathAddressed.Close closeErr w
      = Ok tt (mkWorld (peeks w) (reads w) (writes w)
                 (trace w ++ [EvPrintClose closeErr; EvRwcClose;
                              EvPutBufReader; EvPutBufWriter])))
  /\ (forall w : CodeAddressed.World,
      CodeAddressed.Close w
      = Ok tt (mkWorld (peeks w) (reads w) (writes w)
                 (trace w ++ [EvRwcClose; EvPutBufReader; EvPutBufWriter])))
  /\ (forall (imports : PathAddressed.Imports) (server : PathAddressed.Server)
             (fuel : nat) (w w' : PathAddressed.World),
      PathAddressed.serve imports server fuel w = Ok tt w' ->
      releases (trace w')
      = releases (trace w) ++ [EvPutBufReader; EvPutBufWriter])
  /\ (forall (imports : CodeAddressed.Imports) (server : CodeAddressed.Server)
             (fuel : nat) (w w' : CodeAddressed.World),
      CodeAddressed.serve imports server fuel w = Ok tt w' ->
      releases (trace w')
      = releases (trace w) ++ [EvPutBufReader; EvPutBufWriter]).
Proof.
  split; [| split; [| split]].
  - intros closeErr w. unfold PathAddressed.Close. flatten_trace. reflexivity.
  - intros w. unfold CodeAddressed.Close. flatten_trace. reflexivity.
  - intros imports server fuel w w' H.
    pose proof (path_serve_body_keeps imports server fuel w) as Hbody.
    unfold PathAddressed.serve in H.
    destruct (PathAddressed.serve_body imports server fuel w)
      as [e w1 | v w1 | w1 | w1]; try discriminate;
      unfold PathAddressed.Close in H; cbn in H;
      injection H as <-; cbn [trace]; unfold releases in *;
      rewrite !filter_app; cbn; rewrite Hbody, ?app_nil_r, <- ?app_assoc;
      reflexivity.
  - intros imports server fuel w w' H.
    pose proof (code_serve_body_keeps imports server fuel w) as Hbody.
    unfold CodeAddressed.serve in H.
    destruct (CodeAddressed.serve_body imports server fuel w)
      as [e w1 | v w1 | w1 | w1]; try discriminate;
      unfold CodeAddressed.Close in H; cbn in H;
      injection H as <-; cbn [trace]; unfold releases in *;
      rewrite !filter_app; cbn; rewrite Hbody, ?app_nil_r, <- ?app_assoc;
      reflexivity.
Qed.

Lemma Close_releases_on_every_call_witness :
  let closed : PathAddressed.World :=
    mkWorld [None] [path_read "/echo" "hi"] [(false, None)]
      [EvGetBufReader; EvGetBufWriter;
       EvSetReadDeadline NoDeadline; EvSetWriteDeadline NoDeadline;
       EvSetReadDeadline NoDeadline; EvPeek 1; EvSetReadDeadline NoDeadline;
       EvReadSocket; EvReadHistUpdate;
       EvWriteSocket (mkHeader 9527 1 404 12)
                     (bytes_of_string "invalid path");
       EvWriteHistUpdate;
       EvPrintClose (errors_New "no keep alive");
       EvRwcClose; EvPutBufReader; EvPutBufWriter; EvConnsHistDec] in
  PathAddressed.serve path_imports (path_server 0 false) 3
    (two_requests "/missing") = Ok tt closed
  /\ releases (trace closed)
     = releases (trace (two_requests "/missing"))
       ++ [EvPutBufReader; EvPutBufWriter].
Proof.
  intros closed.
  assert (Hrun : PathAddressed.serve path_imports (path_server 0 false) 3
                   (two_requests "/missing") = Ok tt closed)
    by reflexivity.
  split; [exact Hrun |].
  exact (proj1 (proj2 (proj2 Close_releases_on_every_call))
           path_imports (path_server 0 false) 3%nat
           (two_requests "/missing") closed Hrun).
Defined.

(** C4 fails: closing again a connection that [serve] has closed hands the
    reader and the writer to the pool a second time. *)
Lemma close_twice_releases_twice :
  match PathAddressed.serve_call path_imports (path_server 5 true)
          idle_then_timeout
  with
  | Ok _ w1 =>
      occurrences is_PutBufReader (trace w1) = 1%nat
      /\ occurrences is_PutBufWriter (trace w1) = 1%nat
      /\ match PathAddressed.Close (errors_New "closed twice") w1 with
         | Ok _ w2 =>
             occurrences is_PutBufReader (trace w2) = 2%nat
             /\ occurrences is_PutBufWriter (trace w2) = 2%nat
         | _ => False
         end
  | _ => False
  end.
Proof. vm_compute. repeat split. Qed.

(** ** The loops have the fuel they need *)

Section Fuel.
Variables R W : Type.
Variable mu : world R W -> nat.
Hypothesis mu_le :
  forall w w' : world R W,
    (List.length (peeks w') <= List.length (peeks w))%nat ->
    (List.length (reads w') <= List.length (reads w))%nat ->
    (mu w' <= mu w)%nat.

Lemma steady_finishes (A : Type) (n : nat) (m : M (world R W) A) :
  steady mu n m -> finishes mu n m.
Proof.
  intros H w Hw. specialize (H w Hw). destruct (m w); auto.
Qed.

Lemma steady_ret (A : Type) (n : nat) (a : A) : steady mu n (ret a).
Proof. intros w Hw. exact Hw. Qed.

Lemma steady_panic (A : Type) (n : nat) (v : string) :
  steady (A := A) mu n (panic v).
Proof. intros w Hw. exact I. Qed.

Lemma steady_bind (A B : Type) (n : nat) (m : M (world R W) A)
      (k : A -> M (world R W) B) :
  steady mu n m -> (forall a, steady mu n (k a)) -> steady mu n (bind m k).
Proof.
  intros Hm Hk w Hw. specialize (Hm w Hw). cbn.
  destruct (m w) as [a w1 | v w1 | w1 | w1]; try exact Hm.
  exact (Hk a w1 Hm).
Qed.

Lemma finishes_bind (A B : Type) (n : nat) (m : M (world R W) A)
      (k : A -> M (world R W) B) :
  steady mu n m -> (forall a, finishes mu n (k a)) ->
  finishes mu n (bind m k).
Proof.
  intros Hm Hk w Hw. specialize (Hm w Hw). cbn.
  destruct (m w) as [a w1 | v w1 | w1 | w1]; try exact Hm.
  exact (Hk a w1 Hm).
Qed.

Lemma steady_emit (n : nat) (e : event) : steady mu n (emit e).
Proof.
  intros w Hw. cbn.
  apply Nat.le_lt_trans with (mu w); [apply mu_le; cbn; lia | exact Hw].
Qed.

Lemma steady_when (n : nat) (cond : bool) (m : M (world R W) unit) :
  steady mu n m -> steady mu n (when cond m).
Proof. intros H. destruct cond; [exact H | apply steady_ret]. Qed.

Lemma steady_Peek (n : nat) (k : Z) : steady mu n (Peek k).
Proof.
  intros w Hw. cbn. destruct (peeks w) as [| r ps] eqn:E; [exact I |].
  apply Nat.le_lt_trans with (mu w); [apply mu_le; cbn; rewrite ?E; cbn; lia | exact Hw].
Qed.

Lemma steady_ReadSocket (n : nat) : steady mu n ReadSocket.
Proof.
  intros w Hw. cbn. destruct (reads w) as [| r rs] eqn:E; [exact I |].
  apply Nat.le_lt_trans with (mu w); [apply mu_le; cbn; rewrite ?E; cbn; lia | exact Hw].
Qed.

Lemma steady_WriteSocket (n : nat) (h : Header) (body : bytes) :
  steady mu n (WriteSocket h body).
Proof.
  intros w Hw. cbn. destruct (writes w) as [| r ws]; [exact I |].
  apply Nat.le_lt_trans with (mu w); [apply mu_le; cbn; lia | exact Hw].
Qed.

Lemma steady_run_call (A : Type) (n : nat) (c : call A) :
  steady mu n (run_call c).
Proof. destruct c; [apply steady_ret | apply steady_panic]. Qed.
End Fuel.

(** Splits a program along its binds and branches; what is left is the
    next turn of the loop. *)
Ltac fuel_steps :=
  repeat first
    [ assumption
    | apply finishes_bind; [| intros ?]
    | apply steady_bind; [| intros ?]
    | match goal with
      | |- steady _ _ (match ?x with _ => _ end) => destruct x
      | |- finishes _ _ (match ?x with _ => _ end) => destruct x
      end
    | apply steady_ret | apply steady_panic | apply steady_run_call
    | apply steady_when
    | apply steady_emit; assumption
    | apply steady_Peek; assumption
    | apply steady_ReadSocket; assumption
    | apply steady_WriteSocket; assumption
    | apply steady_finishes ].

Lemma peeks_left_le (R W : Type) (w w' : world R W) :
  (List.length (peeks w') <= List.length (peeks w))%nat ->
  (List.length (reads w') <= List.length (reads w))%nat ->
  (peeks_left w' <= peeks_left w)%nat.
Proof. intros H _. exact H. Qed.

Lemma reads_left_le (R W : Type) (w w' : world R W) :
  (List.length (peeks w') <= List.length (peeks w))%nat ->
  (List.length (reads w') <= List.length (reads w))%nat ->
  (reads_left w' <= reads_left w)%nat.
Proof. intros _ H. exact H. Qed.

(** [waitNext] takes at least one peek from the script when it returns. *)
Lemma path_waitNext_drops (server : PathAddressed.Server) (fuel : nat) :
  forall w : PathAddressed.World,
    (peeks_left w < fuel)%nat ->
    match PathAddressed.waitNext server fuel w with
    | Ok _ w' => (peeks_left w' < peeks_left w)%nat
    | OutOfFuel _ => False
    | _ => True
    end.
Proof.
  unfold peeks_left.
  induction fuel as [| fuel IH]; intros [ps rs ws t] Hw; [cbn in Hw; lia |].
  cbn in Hw. cbn.
  destruct ps as [| [e |] ps];
    destruct (negb (PathAddressed.idleTimeout server =? 0)); cbn;
    try exact I; try (destruct e; cbn); try lia;
    match goal with
    | |- context [PathAddressed.waitNext server fuel ?w1] =>
        specialize (IH w1); cbn in IH, Hw;
        destruct (PathAddressed.waitNext server fuel w1);
        try exact I; cbn in *; lia
    end.
Qed.

Lemma path_finishes_after_wait
  (server : PathAddressed.Server) (A : Type) (n : nat)
  (k : option error -> M PathAddressed.World A) :
  (forall werr, finishes (@peeks_left _ _) n (k werr)) ->
  finishes (@peeks_left _ _) (S n)
           (bind (PathAddressed.waitNext_call server) k).
Proof.
  intros Hk w Hw. unfold bind, PathAddressed.waitNext_call.
  pose proof (path_waitNext_drops server (S (List.length (peeks w))) w)
    as Hdrop.
  destruct (PathAddressed.waitNext server (S (List.length (peeks w))) w)
    as [werr w1 | v w1 | w1 | w1]; try exact I.
  - apply Hk. unfold peeks_left in *. lia.
  - apply Hdrop. unfold peeks_left. lia.
Qed.

Lemma path_serve_loop_finishes
  (imports : PathAddressed.Imports) (server : PathAddressed.Server)
  (fuel : nat) :
  finishes (@peeks_left _ _) fuel
           (PathAddressed.serve_loop imports server fuel).
Proof.
  pose proof (@peeks_left_le PathAddressed.read_result
                             PathAddressed.write_result) as Hmu.
  induction fuel as [| fuel IH]; [intros w Hw; lia |].
  cbn [PathAddressed.serve_loop]. unfold PathAddressed.loop_body.
  apply path_finishes_after_wait. intros werr.
  unfold PathAddressed.after_wait, PathAddressed.keepAlive,
    PathAddressed.responseStatus, PathAddressed.responseSuccess,
    SetReadDeadline, SetWriteDeadline.
  fuel_steps.
Qed.

(** The path-addressed [serve_call] never ends for want of fuel: it returns
    (the connection is closed) or stays blocked on the stream. *)
Lemma path_serve_call_total
  (imports : PathAddressed.Imports) (server : PathAddressed.Server)
  (w w1 : PathAddressed.World) :
  PathAddressed.serve_call imports server w <> OutOfFuel w1.
Proof.
  pose proof (@peeks_left_le PathAddressed.read_result
                             PathAddressed.write_result) as Hmu.
  unfold PathAddressed.serve_call, PathAddressed.serve.
  assert (Hbody : finishes (@peeks_left _ _) (S (List.length (peeks w)))
                    (PathAddressed.serve_body
                       imports server (S (List.length (peeks w))))).
  { pose proof (path_serve_loop_finishes
                  imports server (S (List.length (peeks w)))).
    unfold PathAddressed.serve_body, SetReadDeadline, SetWriteDeadline.
    fuel_steps. }
  specialize (Hbody w). unfold peeks_left in Hbody.
  destruct (PathAddressed.serve_body imports server _ w);
    cbn; try discriminate.
  exfalso. apply Hbody. lia.
Qed.

Lemma code_finishes_after_read
  (A : Type) (n : nat)
  (k : CodeAddressed.read_result -> M CodeAddressed.World A) :
  (forall r, finishes (@reads_left _ _) n (k r)) ->
  finishes (@reads_left _ _) (S n) (bind ReadSocket k).
Proof.
  intros Hk w Hw. cbn. unfold reads_left in Hw.
  destruct (reads w) as [| r rs] eqn:E; [exact I |].
  apply Hk. unfold reads_left. cbn in *. lia.
Qed.

Lemma code_serve_loop_finishes
  (imports : CodeAddressed.Imports) (server : CodeAddressed.Server)
  (fuel : nat) :
  finishes (@reads_left _ _) fuel
           (CodeAddressed.serve_loop imports server fuel).
Proof.
  pose proof (@reads_left_le CodeAddressed.read_result
                             CodeAddressed.write_result) as Hmu.
  induction fuel as [| fuel IH]; [intros w Hw; lia |].
  cbn [CodeAddressed.serve_loop]. unfold CodeAddressed.loop_body.
  apply finishes_bind.
  { unfold SetReadDeadline. fuel_steps. }
  intros _. apply code_finishes_after_read. intros r.
  unfold CodeAddressed.wait_then, CodeAddressed.waitNext,
    CodeAddressed.responseError, SetReadDeadline, SetWriteDeadline.
  fuel_steps.
Qed.

(** The code-addressed [serve_call] never ends for want of fuel. *)
Lemma code_serve_call_total
  (imports : CodeAddressed.Imports) (server : CodeAddressed.Server)
  (w w1 : CodeAddressed.World) :
  CodeAddressed.serve_call imports server w <> OutOfFuel w1.
Proof.
  pose proof (@reads_left_le CodeAddressed.read_result
                             CodeAddressed.write_result) as Hmu.
  unfold CodeAddressed.serve_call, CodeAddressed.serve.
  assert (Hbody : finishes (@reads_left _ _) (S (List.length (reads w)))
                    (CodeAddressed.serve_body
                       imports server (S (List.length (reads w))))).
  { pose proof (code_serve_loop_finishes
                  imports server (S (List.length (reads w)))).
    unfold CodeAddressed.serve_body, SetReadDeadline, SetWriteDeadline.
    fuel_steps. }
  specialize (Hbody w). unfold reads_left in Hbody.
  destruct (CodeAddressed.serve_body imports server _ w);
    cbn; try discriminate.
  exfalso. apply Hbody. lia.
Qed.

(** * Further properties of the two loops *)

Import MoreSamples.

(** ** Reading and writing failures (path-addressed) *)

(** X1: a read that fails as broken ends the loop with the error of the
    read; a read that fails without being broken sends the loop to its next
    turn; in both cases nothing is written and no write result is used. *)
Theorem path_read_error
  (imports : PathAddressed.Imports) (server : PathAddressed.Server)
  (fuel : nat) (ps : list (option error)) (broken : bool) (err : error)
  (rs : list PathAddressed.read_result) (ws : list PathAddressed.write_result)
  (t : list event) :
  PathAddressed.serve_loop imports server (S fuel)
    (mkWorld (None :: ps) (PathAddressed.ReadErr broken err :: rs) ws t)
  = (if broken then ret err
     else PathAddressed.serve_loop imports server fuel)
      (mkWorld ps rs ws
         (t ++ PathAddressed.wait_events server
            ++ PathAddressed.read_events server)).
Proof.
  unfold_path. cbn.
  destruct (negb (PathAddressed.idleTimeout server =? 0)),
           (negb (PathAddressed.ReadTimeout server =? 0)), broken;
    flatten_trace; reflexivity.
Qed.

(** X2: when the write of a response (status or success) fails, the loop
    returns the error of the write if the failure is broken, without asking
    for keep-alive; a failure that is not broken is followed by the
    keep-alive decision, like a write that succeeds. *)
Theorem path_write_failure
  (imports : PathAddressed.Imports) (server : PathAddressed.Server)
  (fuel : nat) (ps : list (option error)) (h : Header) (body : bytes)
  (rs : list PathAddressed.read_result) (broken : bool) (err : error)
  (ws : list PathAddressed.write_result) (t : list event)
  (rspBytes : bytes) (status : option Status) :
  PathAddressed.handleServe imports server body
    = Returns (rspBytes, status) ->
  PathAddressed.serve_loop imports server (S fuel)
    (mkWorld (None :: ps) (PathAddressed.ReadOk h body :: rs)
             ((broken, Some err) :: ws) t)
  = (if broken then ret err
     else PathAddressed.keepAlive
            imports server (PathAddressed.serve_loop imports server fuel))
      (mkWorld ps rs ws
         (t ++ PathAddressed.wait_events server
            ++ PathAddressed.read_events server
            ++ PathAddressed.write_deadline_events server
            ++ [match status with
                | Some st =>
                    EvWriteSocket
                      (mkHeader (PathAddressed.DefaultMagic imports)
                                (PathAddressed.DefaultVersion imports)
                                (Status_Code st)
                                (uint16 (len (bytes_of_string
                                                (Status_Error st)))))
                      (bytes_of_string (Status_Error st))
                | None =>
                    EvWriteSocket
                      (mkHeader (Magic h) (Version h) 0
                                (uint16 (len rspBytes)))
                      rspBytes
                end;
                EvWriteHistUpdate])).
Proof.
  intros H.
  change (PathAddressed.serve_loop imports server (S fuel))
    with (PathAddressed.loop_body imports server
            (PathAddressed.serve_loop imports server fuel)).
  destruct status as [st |].
  - rewrite (path_turn_status _ _ _ _ _ _ _ _ _ _ _ H).
    destruct broken; flatten_trace; reflexivity.
  - rewrite (path_turn_success _ _ _ _ _ _ _ _ _ _ H).
    destruct broken; flatten_trace; reflexivity.
Qed.

Lemma path_write_failure_witness :
  PathAddressed.serve_loop path_imports (path_server 0 true) 2
    (mkWorld [None; None] [path_read "/echo" "hi"; path_read "/echo" "hi"]
             [(true, Some (errors_New "broken pipe")); (false, None)] [])
  = Ok (errors_New "broken pipe")
       (mkWorld [None] [path_read "/echo" "hi"] [(false, None)]
          [EvSetReadDeadline NoDeadline; EvPeek 1;
           EvSetReadDeadline NoDeadline; EvReadSocket; EvReadHistUpdate;
           EvWriteSocket (mkHeader 9527 1 0 3) (x00 :: bytes_of_string "hi");
           EvWriteHistUpdate]).
Proof.
  exact (path_write_failure
           path_imports (path_server 0 true) 1 [None]
           (request_header 0 (len (request "/echo" "hi")))
           (request "/echo" "hi")
           [path_read "/echo" "hi"] true (errors_New "broken pipe")
           [(false, None)] [] (x00 :: bytes_of_string "hi") None eq_refl).
Defined.

(** ** End of stream while waiting (path-addressed) *)

Lemma path_waitNext_EOFs
  (server : PathAddressed.Server) (k fuel : nat)
  (rest : list (option error))
  (rs : list PathAddressed.read_result) (ws : list PathAddressed.write_result) :
  forall t : list event,
    PathAddressed.waitNext server (k + fuel)
      (mkWorld (repeat (Some io_EOF) k ++ rest) rs ws t)
    = PathAddressed.waitNext server fuel
        (mkWorld rest rs ws
           (t ++ List.concat (repeat (PathAddressed.peek_events server) k))).
Proof.
  induction k as [| k IH]; intros t.
  - cbn. now rewrite app_nil_r.
  - change (S k + fuel)%nat with (S (k + fuel)).
    change (repeat (Some io_EOF) (S k) ++ rest)
      with (Some io_EOF :: (repeat (Some io_EOF) k ++ rest)).
    transitivity
      (PathAddressed.waitNext server (k + fuel)
         (mkWorld (repeat (Some io_EOF) k ++ rest) rs ws
            (t ++ PathAddressed.peek_events server))).
    + unfold PathAddressed.peek_events, PathAddressed.idle_deadline.
      cbn -[Nat.add repeat app].
      destruct (negb (PathAddressed.idleTimeout server =? 0));
        cbn -[Nat.add repeat app PathAddressed.waitNext];
        rewrite <- app_assoc; reflexivity.
    + rewrite IH. cbn [repeat List.concat]. now rewrite <- app_assoc.
Qed.

(** X3: [io.EOF] never ends the wait.  After any number [k] of peeks that
    answer [io.EOF], a peek that finds data makes [waitNext] return nil, each
    peek having been made under a freshly armed deadline; and on a stream
    that only ever answers [io.EOF], [waitNext] returns nothing (neither nil
    nor an error): it goes on peeking. *)
Theorem path_waitNext_skips_EOF
  (server : PathAddressed.Server) (k : nat) (ps : list (option error))
  (rs : list PathAddressed.read_result) (ws : list PathAddressed.write_result)
  (t : list event) :
  PathAddressed.waitNext_call server
    (mkWorld (repeat (Some io_EOF) k ++ None :: ps) rs ws t)
  = Ok None
       (mkWorld ps rs ws
          (t ++ List.concat (repeat (PathAddressed.peek_events server) k)
             ++ PathAddressed.wait_events server))
  /\ PathAddressed.waitNext_call server
       (mkWorld (repeat (Some io_EOF) k) rs ws t)
     = Blocked
         (mkWorld [] rs ws
            (t ++ List.concat (repeat (PathAddressed.peek_events server) k)
               ++ PathAddressed.peek_events server)).
Proof.
  unfold PathAddressed.waitNext_call. cbn [peeks]. split.
  - rewrite length_app, repeat_length. cbn [List.length].
    replace (S (k + S (List.length ps)))
      with (k + S (S (List.length ps)))%nat by lia.
    rewrite path_waitNext_EOFs.
    unfold PathAddressed.wait_events, PathAddressed.peek_events,
      PathAddressed.idle_deadline.
    cbn. destruct (negb (PathAddressed.idleTimeout server =? 0));
      flatten_trace; reflexivity.
  - rewrite repeat_length.
    replace (S k) with (k + 1)%nat by lia.
    rewrite <- (app_nil_r (repeat (Some io_EOF) k)) at 1.
    rewrite path_waitNext_EOFs.
    unfold PathAddressed.peek_events, PathAddressed.idle_deadline.
    cbn. destruct (negb (PathAddressed.idleTimeout server =? 0));
      flatten_trace; reflexivity.
Qed.

(** ** What dispatch can answer (path-addressed) *)

(** X4: [handleServe] answers a status exactly when the body is no envelope
    ([StatusInvalidRequest]) or its path is not registered
    ([StatusInvalidPath]), and then with no bytes; an error returned by a
    handler is never answered as a status. *)
Theorem path_handleServe_status_only
  (imports : PathAddressed.Imports) (server : PathAddressed.Server)
  (body bs : bytes) (status : Status) :
  PathAddressed.handleServe imports server body = Returns (bs, Some status)
  <-> bs = []
      /\ ((PathAddressed.Unmarshal imports body = None
           /\ status = PathAddressed.StatusInvalidRequest imports)
          \/ (exists request : PathAddressed.Request,
                PathAddressed.Unmarshal imports body = Some request
                /\ PathAddressed.getHandler
                     server (PathAddressed.Request_Path request) = None
                /\ status = PathAddressed.StatusInvalidPath imports)).
Proof.
  split.
  - unfold PathAddressed.handleServe, PathAddressed.wrap.
    destruct (PathAddressed.Unmarshal imports body) as [request |] eqn:Hreq.
    + destruct (PathAddressed.getHandler server _) as [handler |] eqn:Hreg.
      * destruct (handler _) as [[bs' err] | v]; [| discriminate].
        destruct (PathAddressed.Marshal imports _); discriminate.
      * intros H. injection H as <- <-. split; [reflexivity |].
        right. exists request. auto.
    + intros H. injection H as <- <-. split; [reflexivity |]. left. auto.
  - intros [-> H]. now apply path_handleServe_status.
Qed.

Lemma path_handleServe_status_only_witness :
  [] = ([] : bytes)
  /\ ((Unmarshal (request "/missing" "hi") = None
       /\ mkStatus 404 "invalid path" = mkStatus 400 "invalid request")
      \/ (exists rq : PathAddressed.Request,
            Unmarshal (request "/missing" "hi") = Some rq
            /\ path_registry (PathAddressed.Request_Path rq) = None
            /\ mkStatus 404 "invalid path" = mkStatus 404 "invalid path")).
Proof.
  exact (proj1 (path_handleServe_status_only
                  path_imports (path_server 0 true)
                  (request "/missing" "hi") []
                  (mkStatus 404 "invalid path")) eq_refl).
Defined.

(** ** Panics *)

(** Whatever makes [handleServe] panic, the turn is left before the write
    and [serve] logs, closes and returns. *)
Lemma path_dispatch_panic
  (imports : PathAddressed.Imports) (server : PathAddressed.Server)
  (fuel : nat) (ps : list (option error)) (h : Header) (body : bytes)
  (rs : list PathAddressed.read_result) (ws : list PathAddressed.write_result)
  (t : list event) (v : string) :
  PathAddressed.handleServe imports server body = Panics v ->
  PathAddressed.serve imports server (S fuel)
    (mkWorld (None :: ps) (PathAddressed.ReadOk h body :: rs) ws t)
  = Ok tt
      (mkWorld ps rs ws
         (t ++ PathAddressed.start_events server
            ++ PathAddressed.wait_events server
            ++ PathAddressed.read_events server
            ++ PathAddressed.write_deadline_events server
            ++ [EvLogErrorf v]
            ++ PathAddressed.close_events (errors_New "serve default close")
            ++ [EvConnsHistDec])).
Proof.
  intros Hserve. unfold_path. cbn.
  destruct (PathAddressed.ReadTimeout server =? 0),
           (PathAddressed.WriteTimeout server =? 0),
           (negb (PathAddressed.idleTimeout server =? 0));
    cbn; rewrite Hserve; flatten_trace; reflexivity.
Qed.

(** X5: when the envelope of a handler's result cannot be marshalled,
    [wrap] panics with the error of the codec: no response is written for
    the request, the panic is logged and the connection is closed with the
    default close error. *)
Theorem path_marshal_failure_closes
  (imports : PathAddressed.Imports) (server : PathAddressed.Server)
  (fuel : nat) (ps : list (option error)) (h : Header) (body : bytes)
  (rs : list PathAddressed.read_result) (ws : list PathAddressed.write_result)
  (t : list event) (request : PathAddressed.Request)
  (handler : PathAddressed.Handler) (bs : bytes) (err : option error)
  (e : error) :
  PathAddressed.Unmarshal imports body = Some request ->
  PathAddressed.getHandler server (PathAddressed.Request_Path request)
    = Some handler ->
  handler (PathAddressed.Request_Req request) = Returns (bs, err) ->
  PathAddressed.Marshal imports (PathAddressed.wrap_response bs err)
    = inr e ->
  PathAddressed.serve imports server (S fuel)
    (mkWorld (None :: ps) (PathAddressed.ReadOk h body :: rs) ws t)
  = Ok tt
      (mkWorld ps rs ws
         (t ++ PathAddressed.start_events server
            ++ PathAddressed.wait_events server
            ++ PathAddressed.read_events server
            ++ PathAddressed.write_deadline_events server
            ++ [EvLogErrorf (Error e)]
            ++ PathAddressed.close_events (errors_New "serve default close")
            ++ [EvConnsHistDec])).
Proof.
  intros Hreq Hreg Hcall Hmarshal.
  apply path_dispatch_panic.
  unfold PathAddressed.handleServe, PathAddressed.wrap.
  now rewrite Hreq, Hreg, Hcall, Hmarshal.
Qed.

Lemma path_marshal_failure_closes_witness :
  PathAddressed.serve strict_imports bad_server 2
    (mkWorld [None] [path_read "/bad" "hi"] [(false, None)] [])
  = Ok tt
      (mkWorld [] [] [(false, None)]
         [EvGetBufReader; EvGetBufWriter;
          EvSetReadDeadline (NowPlus 5); EvPeek 1;
          EvSetReadDeadline NoDeadline;
          EvSetReadDeadline (NowPlus 3); EvReadSocket; EvReadHistUpdate;
          EvSetWriteDeadline (NowPlus 4);
          EvLogErrorf "proto: field contains invalid UTF-8";
          EvPrintClose (errors_New "serve default close");
          EvRwcClose; EvPutBufReader; EvPutBufWriter; EvConnsHistDec]).
Proof.
  exact (path_marshal_failure_closes
           strict_imports bad_server 1 []
           (request_header 0 (len (request "/bad" "hi")))
           (request "/bad" "hi") [] [(false, None)] []
           (PathAddressed.mkRequest "/bad" (bytes_of_string "hi"))
           (fun _ => Returns ([], Some (errors_New bad_text)))
           [] (Some (errors_New bad_text))
           (errors_New "proto: field contains invalid UTF-8")
           eq_refl eq_refl eq_refl eq_refl).
Defined.

Lemma code_serve_no_panic
  (imports : CodeAddressed.Imports) (server : CodeAddressed.Server)
  (fuel : nat) (w w1 : CodeAddressed.World) (v : string) :
  CodeAddressed.serve imports server fuel w <> Panic v w1.
Proof.
  unfold CodeAddressed.serve.
  destruct (CodeAddressed.serve_body imports server fuel w);
    cbn; discriminate.
Qed.

(** X6: in the code-addressed connection a handler that panics ends the
    connection: nothing is written for the request, the deferred [recover]
    logs the panic, [Close] runs, and no run of [serve] ends in a panic. *)
Theorem code_handler_panic_closes
  (imports : CodeAddressed.Imports) (server : CodeAddressed.Server)
  (fuel : nat) (ps : list (option error)) (h : Header) (body : bytes)
  (rs : list CodeAddressed.read_result) (ws : list CodeAddressed.write_result)
  (t : list event) (handler : CodeAddressed.Handler) (v : string) :
  CodeAddressed.getHandler server (Code h) = Some handler ->
  handler (Code h) body = Panics v ->
  CodeAddressed.serve imports server (S fuel)
    (mkWorld ps (CodeAddressed.ReadOk h body :: rs) ws t)
  = Ok tt
      (mkWorld ps rs ws
         (t ++ CodeAddressed.start_events server
            ++ CodeAddressed.read_events server
            ++ CodeAddressed.write_deadline_events server
            ++ [EvLogErrorf v]
            ++ CodeAddressed.close_events))
  /\ (forall (fuel' : nat) (w w1 : CodeAddressed.World) (v' : string),
        CodeAddressed.serve imports server fuel' w <> Panic v' w1).
Proof.
  intros Hreg Hcall. split.
  - unfold_code. unfold CodeAddressed.handleServe. cbn.
    destruct (CodeAddressed.ReadTimeout server =? 0),
             (CodeAddressed.WriteTimeout server =? 0);
      cbn; rewrite Hreg, Hcall; flatten_trace; reflexivity.
  - intros fuel' w w1 v'. apply code_serve_no_panic.
Qed.

Lemma code_handler_panic_closes_witness :
  CodeAddressed.serve
    code_imports
    (CodeAddressed.mkServer 3 4 5 true
       (fun _ => Some (fun _ _ => Panics "index out of range")))
    2 (code_two_requests 1)
  = Ok tt
      (mkWorld [None] [code_read 1 "hi"] [None; None]
         [EvGetBufReader; EvGetBufWriter;
          EvSetReadDeadline (NowPlus 3); EvReadSocket;
          EvSetWriteDeadline (NowPlus 4);
          EvLogErrorf "index out of range";
          EvRwcClose; EvPutBufReader; EvPutBufWriter]).
Proof.
  exact (proj1 (code_handler_panic_closes
                  code_imports
                  (CodeAddressed.mkServer 3 4 5 true
                     (fun _ => Some (fun _ _ => Panics "index out of range")))
                  1 [None] (request_header 1 (len (bytes_of_string "hi")))
                  (bytes_of_string "hi") [code_read 1 "hi"] [None; None] []
                  (fun _ _ => Panics "index out of range")
                  "index out of range" eq_refl eq_refl)).
Defined.

(** ** Failures of the stream (code-addressed) *)

(** X7: in the code-addressed loop every failure of a framing call ends the
    loop at once, whatever keep-alive says and without a wait: a failed
    read, whatever the registry holds (nothing is written), and a failed
    write of the response of a handler. *)
Theorem code_framing_failure_returns
  (imports : CodeAddressed.Imports) (server : CodeAddressed.Server)
  (fuel : nat) (ps : list (option error))
  (rs : list CodeAddressed.read_result) (ws : list CodeAddressed.write_result)
  (t : list event) (err : error) :
  CodeAddressed.serve_loop imports server (S fuel)
    (mkWorld ps (CodeAddressed.ReadErr err :: rs) ws t)
  = Ok tt (mkWorld ps rs ws (t ++ CodeAddressed.read_events server))
  /\ (forall (h : Header) (body rspBytes : bytes),
        CodeAddressed.handleServe server h body = Returns (rspBytes, true) ->
        CodeAddressed.serve_loop imports server (S fuel)
          (mkWorld ps (CodeAddressed.ReadOk h body :: rs) (Some err :: ws) t)
        = Ok tt
            (mkWorld ps rs ws
               (t ++ CodeAddressed.read_events server
                  ++ CodeAddressed.write_deadline_events server
                  ++ [EvWriteSocket
                        (mkHeader (Magic h) (Version h) 0
                                  (uint16 (len rspBytes)))
                        rspBytes]))).
Proof.
  split.
  - unfold_code. cbn.
    destruct (negb (CodeAddressed.ReadTimeout server =? 0));
      flatten_trace; reflexivity.
  - intros h body rspBytes H.
    change (CodeAddressed.serve_loop imports server (S fuel))
      with (CodeAddressed.loop_body imports server
              (CodeAddressed.serve_loop imports server fuel)).
    rewrite (code_turn_success _ _ _ _ _ _ _ _ _ _ H).
    flatten_trace. reflexivity.
Qed.

(** A failed read on a server with no handler at all, and a failed write of
    the response of the handler of code 1. *)
Lemma code_framing_failure_returns_witness :
  CodeAddressed.serve_loop
    code_imports (CodeAddressed.mkServer 3 4 5 true (fun _ => None)) 2
    (mkWorld [None] [CodeAddressed.ReadErr io_EOF; code_read 1 "hi"]
             [None] [])
  = Ok tt
      (mkWorld [None] [code_read 1 "hi"] [None]
         [EvSetReadDeadline (NowPlus 3); EvReadSocket])
  /\ CodeAddressed.serve_loop code_imports (timed_code_server true) 2
       (mkWorld [None] [code_read 1 "hi"; code_read 1 "hi"]
                [Some (errors_New "broken pipe"); None] [])
     = Ok tt
         (mkWorld [None] [code_read 1 "hi"] [None]
            [EvSetReadDeadline (NowPlus 3); EvReadSocket;
             EvSetWriteDeadline (NowPlus 4);
             EvWriteSocket (mkHeader 9527 1 0 2) (bytes_of_string "hi")]).
Proof.
  split.
  - exact (proj1 (code_framing_failure_returns
                    code_imports
                    (CodeAddressed.mkServer 3 4 5 true (fun _ => None))
                    1 [None] [code_read 1 "hi"] [None] [] io_EOF)).
  - exact (proj2 (code_framing_failure_returns
                    code_imports (timed_code_server true) 1 [None]
                    [code_read 1 "hi"] [None] []
                    (errors_New "broken pipe"))
                 (request_header 1 (len (bytes_of_string "hi")))
                 (bytes_of_string "hi") (bytes_of_string "hi") eq_refl).
Defined.

(** X8: when the error response of an unregistered code cannot be written,
    the loop returns at once; nothing more is read. *)
Theorem code_error_response_failure_returns
  (imports : CodeAddressed.Imports) (server : CodeAddressed.Server)
  (fuel : nat) (ps : list (option error)) (h : Header) (body : bytes)
  (rs : list CodeAddressed.read_result) (ws : list CodeAddressed.write_result)
  (t : list event) (err : error) :
  CodeAddressed.getHandler server (Code h) = None ->
  CodeAddressed.serve_loop imports server (S fuel)
    (mkWorld ps (CodeAddressed.ReadOk h body :: rs) (Some err :: ws) t)
  = Ok tt
      (mkWorld ps rs ws
         (t ++ CodeAddressed.read_events server
            ++ CodeAddressed.write_deadline_events server
            ++ [EvWriteSocket
                  (mkHeader (CodeAddressed.DefaultMagic imports)
                            (CodeAddressed.DefaultVersion imports)
                            (CodeAddressed.CodeInvalidAction imports) 14)
                  (bytes_of_string "invalid action")])).
Proof.
  intros H.
  change (CodeAddressed.serve_loop imports server (S fuel))
    with (CodeAddressed.loop_body imports server
            (CodeAddressed.serve_loop imports server fuel)).
  rewrite (code_turn_invalid_action _ _ _ _ _ _ _ _ _ H).
  flatten_trace. reflexivity.
Qed.

Lemma code_error_response_failure_returns_witness :
  CodeAddressed.serve_loop code_imports (timed_code_server true) 2
    (mkWorld [None] [code_read 7 "hi"; code_read 1 "hi"]
             [Some (errors_New "broken pipe"); None] [])
  = Ok tt
      (mkWorld [None] [code_read 1 "hi"] [None]
         [EvSetReadDeadline (NowPlus 3); EvReadSocket;
          EvSetWriteDeadline (NowPlus 4);
          EvWriteSocket (mkHeader 9527 1 404 14)
                        (bytes_of_string "invalid action")]).
Proof.
  exact (code_error_response_failure_returns
           code_imports (timed_code_server true) 1 [None]
           (request_header 7 (len (bytes_of_string "hi")))
           (bytes_of_string "hi") [code_read 1 "hi"] [None] []
           (errors_New "broken pipe") eq_refl).
Defined.

(** X9: with an idle timeout that is not zero, the code-addressed wait arms
    the idle deadline and peeks for a whole header; any peek error, [io.EOF]
    and the timeout alike, ends the loop, and a peek that finds data clears
    the deadline and starts the next turn. *)
Theorem code_wait_then_outcomes
  (imports : CodeAddressed.Imports) (server : CodeAddressed.Server)
  (again : M CodeAddressed.World unit)
  (r : option error) (ps : list (option error))
  (rs : list CodeAddressed.read_result) (ws : list CodeAddressed.write_result)
  (t : list event) :
  CodeAddressed.idleTimeout server <> 0 ->
  CodeAddressed.wait_then imports server again (mkWorld (r :: ps) rs ws t)
  = match r with
    | Some _ =>
        Ok tt (mkWorld ps rs ws (t ++ CodeAddressed.peek_events imports server))
    | None =>
        again (mkWorld ps rs ws
                 (t ++ CodeAddressed.peek_events imports server
                    ++ [EvSetReadDeadline NoDeadline]))
    end.
Proof.
  intros H. apply Z.eqb_neq in H.
  unfold_code. rewrite H. destruct r; flatten_trace; reflexivity.
Qed.

Lemma code_wait_then_outcomes_witness :
  CodeAddressed.wait_then code_imports (timed_code_server true) (ret tt)
    (mkWorld [Some io_EOF] [code_read 1 "hi"] [None] [])
  = Ok tt (mkWorld [] [code_read 1 "hi"] [None]
             [EvSetReadDeadline (NowPlus 5); EvPeek 9]).
Proof.
  refine (code_wait_then_outcomes
            code_imports (timed_code_server true) (ret tt)
            (Some io_EOF) [] [code_read 1 "hi"] [None] [] _).
  cbn. discriminate.
Defined.

(** ** What a run puts on its trace *)

Section EmitsOnly.
Variables R W : Type.
Variable p : event -> bool.

Lemma eo_ret (A : Type) (a : A) : emits_only R W A p (ret a).
Proof. intros w. exists []. now rewrite app_nil_r. Qed.

Lemma eo_panic (A : Type) (v : string) : emits_only R W A p (panic v).
Proof. intros w. exists []. now rewrite app_nil_r. Qed.

Lemma eo_out_of_fuel (A : Type) : emits_only R W A p out_of_fuel.
Proof. intros w. exists []. now rewrite app_nil_r. Qed.

Lemma eo_bind (A B : Type) (m : M (world R W) A) (k : A -> M (world R W) B) :
  emits_only R W A p m -> (forall a, emits_only R W B p (k a)) ->
  emits_only R W B p (bind m k).
Proof.
  intros Hm Hk w. specialize (Hm w). cbn.
  destruct (m w) as [a w1 | v w1 | w1 | w1]; try exact Hm.
  destruct Hm as [evs [Ht Hp]]. specialize (Hk a w1).
  destruct (k a w1) as [b w2 | v w2 | w2 | w2];
    destruct Hk as [evs' [Ht' Hp']];
    exists (evs ++ evs');
    (split; [rewrite Ht', Ht; apply eq_sym, app_assoc
            | rewrite forallb_app, Hp, Hp'; reflexivity]).
Qed.

Lemma eo_emit (e : event) : p e = true -> emits_only R W unit p (emit e).
Proof. intros H w. exists [e]. cbn. now rewrite H. Qed.

Lemma eo_when (cond : bool) (m : M (world R W) unit) :
  emits_only R W unit p m -> emits_only R W unit p (when cond m).
Proof. intros H. destruct cond; [exact H | apply eo_ret]. Qed.

Lemma eo_Peek (n : Z) :
  p (EvPeek n) = true -> emits_only R W (option error) p (Peek n).
Proof.
  intros H w. cbn. destruct (peeks w); exists [EvPeek n]; cbn; now rewrite H.
Qed.

Lemma eo_ReadSocket :
  p EvReadSocket = true -> emits_only R W R p ReadSocket.
Proof.
  intros H w. cbn. destruct (reads w); exists [EvReadSocket]; cbn;
    now rewrite H.
Qed.

Lemma eo_WriteSocket (h : Header) (body : bytes) :
  p (EvWriteSocket h body) = true ->
  emits_only R W W p (WriteSocket h body).
Proof.
  intros H w. cbn. destruct (writes w); exists [EvWriteSocket h body]; cbn;
    now rewrite H.
Qed.

Lemma eo_run_call (A : Type) (c : call A) : emits_only R W A p (run_call c).
Proof. destruct c; [apply eo_ret | apply eo_panic]. Qed.
End EmitsOnly.

(** Splits a program along its binds and branches; [side] proves that an
    event satisfies the predicate. *)
Ltac emits side :=
  repeat first
    [ assumption
    | apply eo_ret | apply eo_panic | apply eo_out_of_fuel
    | apply eo_run_call
    | apply eo_Peek; side
    | apply eo_ReadSocket; side
    | apply eo_WriteSocket; side
    | apply eo_emit; side
    | apply eo_when
    | apply eo_bind; [| intros ?]
    | match goal with
      | |- emits_only _ _ _ _ (match ?x with _ => _ end) => destruct x
      end ].

Ltac frame_side := cbn; try reflexivity; apply Z.eqb_refl.

Lemma path_waitNext_emits
  (p : event -> bool) (server : PathAddressed.Server) (fuel : nat) :
  (forall d, p (EvSetReadDeadline d) = true) ->
  (forall n, p (EvPeek n) = true) ->
  emits_only _ _ _ p (PathAddressed.waitNext server fuel).
Proof.
  intros Hset Hpeek.
  induction fuel as [| fuel IH]; cbn [PathAddressed.waitNext].
  - apply eo_out_of_fuel.
  - unfold SetReadDeadline. emits ltac:(first [apply Hset | apply Hpeek]).
Qed.

Lemma path_serve_loop_turn_events
  (imports : PathAddressed.Imports) (server : PathAddressed.Server)
  (fuel : nat) :
  emits_only _ _ _ is_turn_event
             (PathAddressed.serve_loop imports server fuel).
Proof.
  induction fuel as [| fuel IH]; cbn [PathAddressed.serve_loop].
  - apply eo_out_of_fuel.
  - unfold PathAddressed.loop_body. apply eo_bind.
    + intros w. apply path_waitNext_emits; reflexivity.
    + intros werr.
      unfold PathAddressed.after_wait, PathAddressed.keepAlive,
        PathAddressed.responseStatus, PathAddressed.responseSuccess,
        SetReadDeadline, SetWriteDeadline.
      emits reflexivity.
Qed.

Lemma code_serve_loop_turn_events
  (imports : CodeAddressed.Imports) (server : CodeAddressed.Server)
  (fuel : nat) :
  emits_only _ _ _ is_turn_event
             (CodeAddressed.serve_loop imports server fuel).
Proof.
  induction fuel as [| fuel IH]; cbn [CodeAddressed.serve_loop].
  - apply eo_out_of_fuel.
  - unfold CodeAddressed.loop_body, CodeAddressed.wait_then,
      CodeAddressed.waitNext, CodeAddressed.responseError,
      SetReadDeadline, SetWriteDeadline.
    emits reflexivity.
Qed.

(** The shape of the trace of a run of [serve]: the two acquisitions, then
    events of the turns only, then, when the run returns, the closing
    events. *)
Lemma path_serve_shape
  (imports : PathAddressed.Imports) (server : PathAddressed.Server)
  (fuel : nat) (w : PathAddressed.World) :
  match PathAddressed.serve imports server fuel w with
  | Ok _ w' =>
      exists (turns : list event) (closing : list event),
        trace w'
        = trace w ++ [EvGetBufReader; EvGetBufWriter] ++ turns ++ closing
        /\ forallb is_turn_event turns = true
        /\ ((exists closeErr : error,
               closing = PathAddressed.close_events closeErr
                         ++ [EvConnsHistDec])
            \/ (exists v : string,
                  closing = [EvLogErrorf v]
                            ++ PathAddressed.close_events
                                 (errors_New "serve default close")
                            ++ [EvConnsHistDec]))
  | Panic _ w' | Blocked w' | OutOfFuel w' =>
      exists turns : list event,
        trace w' = trace w ++ [EvGetBufReader; EvGetBufWriter] ++ turns
        /\ forallb is_turn_event turns = true
  end.
Proof.
  set (rest := when (PathAddressed.ReadTimeout server =? 0)
                    (SetReadDeadline NoDeadline) ;;
               when (PathAddressed.WriteTimeout server =? 0)
                    (SetWriteDeadline NoDeadline) ;;
               PathAddressed.serve_loop imports server fuel).
  assert (Hrest : emits_only _ _ _ is_turn_event rest).
  { pose proof (path_serve_loop_turn_events imports server fuel).
    unfold rest, SetReadDeadline, SetWriteDeadline. emits reflexivity. }
  set (w0 := mkWorld (peeks w) (reads w) (writes w)
                     ((trace w ++ [EvGetBufReader]) ++ [EvGetBufWriter])).
  assert (Hbody : PathAddressed.serve_body imports server fuel w = rest w0)
    by reflexivity.
  unfold PathAddressed.serve. rewrite Hbody.
  specialize (Hrest w0).
  destruct (rest w0) as [e w1 | v w1 | w1 | w1];
    destruct Hrest as [turns [Ht Hp]];
    unfold PathAddressed.Close; cbn in Ht |- *; rewrite Ht.
  - exists turns. eexists. split; [| split; [exact Hp |]].
    + repeat (rewrite <- app_assoc; cbn [app]). reflexivity.
    + left. eexists. reflexivity.
  - exists turns. eexists. split; [| split; [exact Hp |]].
    + repeat (rewrite <- app_assoc; cbn [app]). reflexivity.
    + right. eexists. reflexivity.
  - exists turns. split; [| exact Hp].
    repeat (rewrite <- app_assoc; cbn [app]). reflexivity.
  - exists turns. split; [| exact Hp].
    repeat (rewrite <- app_assoc; cbn [app]). reflexivity.
Qed.

Lemma code_serve_shape
  (imports : CodeAddressed.Imports) (server : CodeAddressed.Server)
  (fuel : nat) (w : CodeAddressed.World) :
  match CodeAddressed.serve imports server fuel w with
  | Ok _ w' =>
      exists (turns : list event) (closing : list event),
        trace w'
        = trace w ++ [EvGetBufReader; EvGetBufWriter] ++ turns ++ closing
        /\ forallb is_turn_event turns = true
        /\ (closing = CodeAddressed.close_events
            \/ (exists v : string,
                  closing = [EvLogErrorf v] ++ CodeAddressed.close_events))
  | Panic _ w' | Blocked w' | OutOfFuel w' =>
      exists turns : list event,
        trace w' = trace w ++ [EvGetBufReader; EvGetBufWriter] ++ turns
        /\ forallb is_turn_event turns = true
  end.
Proof.
  set (rest := when (CodeAddressed.ReadTimeout server =? 0)
                    (SetReadDeadline NoDeadline) ;;
               when (CodeAddressed.WriteTimeout server =? 0)
                    (SetWriteDeadline NoDeadline) ;;
               CodeAddressed.serve_loop imports server fuel).
  assert (Hrest : emits_only _ _ _ is_turn_event rest).
  { pose proof (code_serve_loop_turn_events imports server fuel).
    unfold rest, SetReadDeadline, SetWriteDeadline. emits reflexivity. }
  set (w0 := mkWorld (peeks w) (reads w) (writes w)
                     ((trace w ++ [EvGetBufReader]) ++ [EvGetBufWriter])).
  assert (Hbody : CodeAddressed.serve_body imports server fuel w = rest w0)
    by reflexivity.
  unfold CodeAddressed.serve. rewrite Hbody.
  specialize (Hrest w0).
  destruct (rest w0) as [e w1 | v w1 | w1 | w1];
    destruct Hrest as [turns [Ht Hp]];
    unfold CodeAddressed.Close; cbn in Ht |- *; rewrite Ht.
  - exists turns. eexists. split; [| split; [exact Hp |]].
    + repeat (rewrite <- app_assoc; cbn [app]). reflexivity.
    + left. reflexivity.
  - exists turns. eexists. split; [| split; [exact Hp |]].
    + repeat (rewrite <- app_assoc; cbn [app]). reflexivity.
    + right. eexists. reflexivity.
  - exists turns. split; [| exact Hp].
    repeat (rewrite <- app_assoc; cbn [app]). reflexivity.
  - exists turns. split; [| exact Hp].
    repeat (rewrite <- app_assoc; cbn [app]). reflexivity.
Qed.

(** Reading a trace in two parts. *)
Lemma monitor_app (St : Type) (step : St -> event -> option St) (s0 : St)
      (t1 t2 : list event) :
  monitor step s0 (t1 ++ t2)
  = match monitor step s0 t1 with
    | Some s => monitor step s t2
    | None => None
    end.
Proof.
  unfold monitor. rewrite fold_left_app.
  destruct (fold_left (feed step) t1 (Some s0)) as [s |]; [reflexivity |].
  induction t2 as [| e t2 IH]; [reflexivity | exact IH].
Qed.

(** The events of the turns leave an open connection open. *)
Lemma life_turns (turns : list event) :
  forallb is_turn_event turns = true ->
  monitor life_step Open turns = Some Open.
Proof.
  induction turns as [| e turns IH]; [reflexivity |].
  cbn [forallb]. intros H. apply andb_prop in H. destruct H as [He Ht].
  change (e :: turns) with ([e] ++ turns). rewrite monitor_app.
  destruct e; try discriminate He; cbn; exact (IH Ht).
Qed.

(** The monitor does refuse: a read before the writer is acquired, a write
    after the stream is closed, a second close. *)
Lemma life_step_refuses (h : Header) (body : bytes) :
  accepts life_step Fresh [EvGetBufReader; EvReadSocket] = false
  /\ accepts life_step Fresh
       [EvGetBufReader; EvGetBufWriter; EvRwcClose; EvWriteSocket h body]
     = false
  /\ accepts life_step Fresh
       [EvGetBufReader; EvGetBufWriter; EvRwcClose; EvRwcClose] = false.
Proof. repeat split. Qed.

(** X10: the stream is used between acquiring and closing.  In every run of
    [serve] of either variant, however it ends, every deadline, peek, read
    and write call on the stream is made after the buffered reader and
    writer were acquired and before the stream is closed; the stream is
    closed at most once; the reader and the writer are released only after
    the close, once each.  A run that returns has closed the stream and
    released both. *)
Theorem stream_used_between_acquire_and_close :
  (forall (imports : PathAddressed.Imports) (server : PathAddressed.Server)
          (fuel : nat) (ps : list (option error))
          (rs : list PathAddressed.read_result)
          (ws : list PathAddressed.write_result),
      match PathAddressed.serve imports server fuel (mkWorld ps rs ws []) with
      | Ok _ w' => monitor life_step Fresh (trace w') = Some Released
      | Panic _ w' | Blocked w' | OutOfFuel w' =>
          monitor life_step Fresh (trace w') = Some Open
      end)
  /\ (forall (imports : CodeAddressed.Imports) (server : CodeAddressed.Server)
             (fuel : nat) (ps : list (option error))
             (rs : list CodeAddressed.read_result)
             (ws : list CodeAddressed.write_result),
      match CodeAddressed.serve imports server fuel (mkWorld ps rs ws []) with
      | Ok _ w' => monitor life_step Fresh (trace w') = Some Released
      | Panic _ w' | Blocked w' | OutOfFuel w' =>
          monitor life_step Fresh (trace w') = Some Open
      end).
Proof.
  split.
  - intros imports server fuel ps rs ws.
    pose proof (path_serve_shape imports server fuel (mkWorld ps rs ws []))
      as Hshape.
    destruct (PathAddressed.serve imports server fuel (mkWorld ps rs ws []))
      as [u w' | v w' | w' | w'].
    + destruct Hshape as [turns [closing [Ht [Hp Hc]]]].
      rewrite Ht. cbn [trace app].
      change (EvGetBufReader :: EvGetBufWriter :: turns ++ closing)
        with ([EvGetBufReader; EvGetBufWriter] ++ turns ++ closing).
      rewrite monitor_app.
      change (monitor life_step Fresh [EvGetBufReader; EvGetBufWriter])
        with (Some Open).
      cbv iota beta.
      rewrite monitor_app, (life_turns turns Hp).
      destruct Hc as [[closeErr ->] | [v ->]]; reflexivity.
    + destruct Hshape as [turns [Ht Hp]]. rewrite Ht. cbn [trace app].
      change (EvGetBufReader :: EvGetBufWriter :: turns)
        with ([EvGetBufReader; EvGetBufWriter] ++ turns).
      rewrite monitor_app. exact (life_turns turns Hp).
    + destruct Hshape as [turns [Ht Hp]]. rewrite Ht. cbn [trace app].
      change (EvGetBufReader :: EvGetBufWriter :: turns)
        with ([EvGetBufReader; EvGetBufWriter] ++ turns).
      rewrite monitor_app. exact (life_turns turns Hp).
    + destruct Hshape as [turns [Ht Hp]]. rewrite Ht. cbn [trace app].
      change (EvGetBufReader :: EvGetBufWriter :: turns)
        with ([EvGetBufReader; EvGetBufWriter] ++ turns).
      rewrite monitor_app. exact (life_turns turns Hp).
  - intros imports server fuel ps rs ws.
    pose proof (code_serve_shape imports server fuel (mkWorld ps rs ws []))
      as Hshape.
    destruct (CodeAddressed.serve imports server fuel (mkWorld ps rs ws []))
      as [u w' | v w' | w' | w'].
    + destruct Hshape as [turns [closing [Ht [Hp Hc]]]].
      rewrite Ht. cbn [trace app].
      change (EvGetBufReader :: EvGetBufWriter :: turns ++ closing)
        with ([EvGetBufReader; EvGetBufWriter] ++ turns ++ closing).
      rewrite monitor_app.
      change (monitor life_step Fresh [EvGetBufReader; EvGetBufWriter])
        with (Some Open).
      cbv iota beta.
      rewrite monitor_app, (life_turns turns Hp).
      destruct Hc as [-> | [v ->]]; reflexivity.
    + destruct Hshape as [turns [Ht Hp]]. rewrite Ht. cbn [trace app].
      change (EvGetBufReader :: EvGetBufWriter :: turns)
        with ([EvGetBufReader; EvGetBufWriter] ++ turns).
      rewrite monitor_app. exact (life_turns turns Hp).
    + destruct Hshape as [turns [Ht Hp]]. rewrite Ht. cbn [trace app].
      change (EvGetBufReader :: EvGetBufWriter :: turns)
        with ([EvGetBufReader; EvGetBufWriter] ++ turns).
      rewrite monitor_app. exact (life_turns turns Hp).
    + destruct Hshape as [turns [Ht Hp]]. rewrite Ht. cbn [trace app].
      change (EvGetBufReader :: EvGetBufWriter :: turns)
        with ([EvGetBufReader; EvGetBufWriter] ++ turns).
      rewrite monitor_app. exact (life_turns turns Hp).
Qed.

Lemma path_serve_loop_frames
  (imports : PathAddressed.Imports) (server : PathAddressed.Server)
  (fuel : nat) :
  emits_only _ _ _ frame_length_ok
             (PathAddressed.serve_loop imports server fuel).
Proof.
  induction fuel as [| fuel IH]; cbn [PathAddressed.serve_loop].
  - apply eo_out_of_fuel.
  - unfold PathAddressed.loop_body. apply eo_bind.
    + intros w. apply path_waitNext_emits; reflexivity.
    + intros werr.
      unfold PathAddressed.after_wait, PathAddressed.keepAlive,
        PathAddressed.responseStatus, PathAddressed.responseSuccess,
        SetReadDeadline, SetWriteDeadline.
      emits frame_side.
Qed.

Lemma code_serve_loop_frames
  (imports : CodeAddressed.Imports) (server : CodeAddressed.Server)
  (fuel : nat) :
  emits_only _ _ _ frame_length_ok
             (CodeAddressed.serve_loop imports server fuel).
Proof.
  induction fuel as [| fuel IH]; cbn [CodeAddressed.serve_loop].
  - apply eo_out_of_fuel.
  - unfold CodeAddressed.loop_body, CodeAddressed.wait_then,
      CodeAddressed.waitNext, CodeAddressed.responseError,
      SetReadDeadline, SetWriteDeadline.
    emits frame_side.
Qed.

(** A deferred [recover]: the continuation of a return and the one of a
    panic. *)
Lemma eo_recover (R W A B : Type) (p : event -> bool)
      (m : M (world R W) A) (k : A -> M (world R W) B)
      (h : string -> M (world R W) B) :
  emits_only R W A p m ->
  (forall a, emits_only R W B p (k a)) ->
  (forall v, emits_only R W B p (h v)) ->
  emits_only R W B p
    (fun w => match m w with
              | Ok a w' => k a w'
              | Panic v w' => h v w'
              | Blocked w' => Blocked w'
              | OutOfFuel w' => OutOfFuel w'
              end).
Proof.
  intros Hm Hk Hh w. specialize (Hm w).
  destruct (m w) as [a w1 | v w1 | w1 | w1]; try exact Hm;
    destruct Hm as [evs [Ht Hp]].
  - specialize (Hk a w1).
    destruct (k a w1); destruct Hk as [evs' [Ht' Hp']];
      exists (evs ++ evs');
      (split; [rewrite Ht', Ht; apply eq_sym, app_assoc
              | rewrite forallb_app, Hp, Hp'; reflexivity]).
  - specialize (Hh v w1).
    destruct (h v w1); destruct Hh as [evs' [Ht' Hp']];
      exists (evs ++ evs');
      (split; [rewrite Ht', Ht; apply eq_sym, app_assoc
              | rewrite forallb_app, Hp, Hp'; reflexivity]).
Qed.

(** X11: every frame a connection hands to [WriteSocket], in any run of
    [serve] of either variant and however the run ends, has a header
    [Length] equal to the low 16 bits of the length of the body handed over
    with it: a status, an error or a success frame alike. *)
Theorem frames_carry_uint16_length :
  (forall (imports : PathAddressed.Imports) (server : PathAddressed.Server)
          (fuel : nat),
      emits_only PathAddressed.read_result PathAddressed.write_result unit
                 frame_length_ok
                 (PathAddressed.serve imports server fuel))
  /\ (forall (imports : CodeAddressed.Imports) (server : CodeAddressed.Server)
             (fuel : nat),
      emits_only CodeAddressed.read_result CodeAddressed.write_result unit
                 frame_length_ok
                 (CodeAddressed.serve imports server fuel)).
Proof.
  split.
  - intros imports server fuel.
    pose proof (path_serve_loop_frames imports server fuel).
    unfold PathAddressed.serve. apply eo_recover.
    + unfold PathAddressed.serve_body, SetReadDeadline, SetWriteDeadline.
      emits frame_side.
    + intros e. unfold PathAddressed.Close. emits frame_side.
    + intros v. unfold PathAddressed.Close. emits frame_side.
  - intros imports server fuel.
    pose proof (code_serve_loop_frames imports server fuel).
    unfold CodeAddressed.serve. apply eo_recover.
    + unfold CodeAddressed.serve_body, SetReadDeadline, SetWriteDeadline.
      emits frame_side.
    + intros e. unfold CodeAddressed.Close. emits frame_side.
    + intros v. unfold CodeAddressed.Close. emits frame_side.
Qed.

(** ** Programs under a monitor *)

Section Guarded.
Variables R W St : Type.
Variable step : St -> event -> option St.
Variable s0 : St.

Lemma monitor_snoc (t : list event) (e : event) :
  monitor step s0 (t ++ [e]) = feed step (monitor step s0 t) e.
Proof. unfold monitor. now rewrite fold_left_app. Qed.

Lemma g_weaken (A : Type) (P P' : St -> Prop) (Q Q' : A -> St -> Prop)
      (m : M (world R W) A) :
  guarded R W step s0 P' m Q' ->
  (forall s, P s -> P' s) -> (forall a s, Q' a s -> Q a s) ->
  guarded R W step s0 P m Q.
Proof.
  intros Hm HP HQ w s Hs Hpre. specialize (Hm w s Hs (HP s Hpre)).
  destruct (m w); try exact Hm.
  destruct Hm as [s' [Hs' Hq]]. exists s'. auto.
Qed.

Lemma g_ret (A : Type) (P : St -> Prop) (a : A) :
  guarded R W step s0 P (ret a) (fun _ s => P s).
Proof. intros w s Hs Hpre. exists s. auto. Qed.

Lemma g_panic (A : Type) (P : St -> Prop) (Q : A -> St -> Prop) (v : string) :
  guarded R W step s0 P (panic v) Q.
Proof. intros w s Hs Hpre. cbn -[monitor]. congruence. Qed.

Lemma g_out_of_fuel (A : Type) (P : St -> Prop) (Q : A -> St -> Prop) :
  guarded R W step s0 P out_of_fuel Q.
Proof. intros w s Hs Hpre. cbn -[monitor]. congruence. Qed.

Lemma g_run_call (A : Type) (P : St -> Prop) (c : call A) :
  guarded R W step s0 P (run_call c) (fun _ s => P s).
Proof. destruct c; [apply g_ret | apply g_panic]. Qed.

Lemma g_bind (A B : Type) (P : St -> Prop) (Q : A -> St -> Prop)
      (T : B -> St -> Prop) (m : M (world R W) A)
      (k : A -> M (world R W) B) :
  guarded R W step s0 P m Q -> (forall a, guarded R W step s0 (Q a) (k a) T) ->
  guarded R W step s0 P (bind m k) T.
Proof.
  intros Hm Hk w s Hs Hpre. specialize (Hm w s Hs Hpre). cbn -[monitor].
  destruct (m w) as [a w1 | v w1 | w1 | w1]; try exact Hm.
  destruct Hm as [s1 [Hs1 Hq]]. exact (Hk a w1 s1 Hs1 Hq).
Qed.

Lemma g_emit (P : St -> Prop) (e : event) :
  passes step P e -> guarded R W step s0 P (emit e) (fun _ => after step P e).
Proof.
  intros He w s Hs Hpre. cbn -[monitor]. rewrite monitor_snoc, Hs. cbn.
  specialize (He s Hpre). destruct (step s e) as [s' |] eqn:E; [| easy].
  exists s'. split; [reflexivity |]. exists s. auto.
Qed.

Lemma g_Peek (P : St -> Prop) (n : Z) :
  passes step P (EvPeek n) ->
  guarded R W step s0 P (Peek n) (fun _ => after step P (EvPeek n)).
Proof.
  intros He w s Hs Hpre. specialize (He s Hpre).
  destruct (step s (EvPeek n)) as [s' |] eqn:E; [| easy].
  cbn -[monitor]. destruct (peeks w); cbn -[monitor];
  rewrite monitor_snoc, Hs; cbn; rewrite E.
  - discriminate.
  - exists s'. split; [reflexivity |]. exists s. auto.
Qed.

Lemma g_ReadSocket (P : St -> Prop) :
  passes step P EvReadSocket ->
  guarded R W step s0 P (@ReadSocket R W) (fun _ => after step P EvReadSocket).
Proof.
  intros He w s Hs Hpre. specialize (He s Hpre).
  destruct (step s EvReadSocket) as [s' |] eqn:E; [| easy].
  cbn -[monitor]. destruct (reads w); cbn -[monitor];
  rewrite monitor_snoc, Hs; cbn; rewrite E.
  - discriminate.
  - exists s'. split; [reflexivity |]. exists s. auto.
Qed.

Lemma g_WriteSocket (P : St -> Prop) (h : Header) (body : bytes) :
  passes step P (EvWriteSocket h body) ->
  guarded R W step s0 P (@WriteSocket R W h body)
          (fun _ => after step P (EvWriteSocket h body)).
Proof.
  intros He w s Hs Hpre. specialize (He s Hpre).
  destruct (step s (EvWriteSocket h body)) as [s' |] eqn:E; [| easy].
  cbn -[monitor]. destruct (writes w); cbn -[monitor];
  rewrite monitor_snoc, Hs; cbn; rewrite E.
  - discriminate.
  - exists s'. split; [reflexivity |]. exists s. auto.
Qed.

(** A guarded program started on an accepted trace ends on one. *)
Lemma guarded_accepts (A : Type) (P : St -> Prop) (Q : A -> St -> Prop)
      (m : M (world R W) A) (w : world R W) (s : St) :
  guarded R W step s0 P m Q ->
  monitor step s0 (trace w) = Some s -> P s ->
  match m w with
  | Ok _ w' | Panic _ w' | Blocked w' | OutOfFuel w' =>
      accepts step s0 (trace w') = true
  end.
Proof.
  intros Hm Hs Hpre. specialize (Hm w s Hs Hpre). unfold accepts.
  destruct (m w) as [a w1 | v w1 | w1 | w1].
  - destruct Hm as [s' [Hs' _]]. now rewrite Hs'.
  - destruct (monitor step s0 (trace w1)); easy.
  - destruct (monitor step s0 (trace w1)); easy.
  - destruct (monitor step s0 (trace w1)); easy.
Qed.
End Guarded.

(** A deferred [recover] under a monitor: after a panic nothing is known of
    the state but that the trace was accepted. *)
Lemma g_recover (R W St A B : Type) (step : St -> event -> option St)
      (s0 : St) (P : St -> Prop) (Q : A -> St -> Prop) (T : B -> St -> Prop)
      (m : M (world R W) A) (k : A -> M (world R W) B)
      (h : string -> M (world R W) B) :
  guarded R W step s0 P m Q ->
  (forall a, guarded R W step s0 (Q a) (k a) T) ->
  (forall v, guarded R W step s0 (fun _ => True) (h v) T) ->
  guarded R W step s0 P
    (fun w => match m w with
              | Ok a w' => k a w'
              | Panic v w' => h v w'
              | Blocked w' => Blocked w'
              | OutOfFuel w' => OutOfFuel w'
              end) T.
Proof.
  intros Hm Hk Hh w s Hs Hpre. specialize (Hm w s Hs Hpre).
  destruct (m w) as [a w1 | v w1 | w1 | w1]; try exact Hm.
  - destruct Hm as [s1 [Hs1 Hq]]. exact (Hk a w1 s1 Hs1 Hq).
  - destruct (monitor step s0 (trace w1)) as [s1 |] eqn:Hs1; [| easy].
    exact (Hh v w1 s1 Hs1 I).
Qed.

Lemma g_ret_post (R W St A : Type) (step : St -> event -> option St)
      (s0 : St) (P : St -> Prop) (Q : A -> St -> Prop) (a : A) :
  (forall s, P s -> Q a s) -> guarded R W step s0 P (ret a) Q.
Proof. intros H w s Hs Hpre. exists s. auto. Qed.

(** Opens the facts that the rules have collected about the state. *)
Ltac open_state :=
  unfold after in *;
  repeat match goal with
    | H : exists _, _ |- _ => destruct H
    | H : _ /\ _ |- _ => destruct H
    | H : ?x = ?x -> _ |- _ => specialize (H eq_refl)
    end;
  repeat match goal with
    | H : _ = Some _ |- _ =>
        progress cbn in H;
        match type of H with
        | Some _ = Some _ => inversion H; subst; clear H
        | (if ?c then _ else _) = Some _ =>
            destruct c eqn:?; [inversion H; subst; clear H | discriminate H]
        end
    end.

Ltac close_state :=
  cbn in *; subst; rewrite ?Z.eqb_refl;
  repeat match goal with
    | H : _ = Some _ |- _ => rewrite H
    end;
  cbn; rewrite ?Z.eqb_refl;
  repeat split; intros; auto; try discriminate; try congruence.

Ltac state_side := unfold passes; intros; open_state; close_state.

(** A straight-line program: its postcondition is collected from the
    events it emits. *)
Ltac guard_line :=
  first
    [ first [ apply g_emit | apply g_Peek
            | apply g_ReadSocket | apply g_WriteSocket ]; state_side
    | apply g_run_call
    | apply g_ret
    | eapply g_bind; [ guard_line | intros ?; guard_line ] ].

(** Splits a guarded program along its binds and branches; [leaf] closes
    the goals of the sub-programs that have a lemma of their own. *)
Ltac guard_steps leaf :=
  repeat first
    [ apply g_out_of_fuel | apply g_panic
    | leaf
    | eapply g_bind; [ guard_line | intros ? ]
    | apply g_ret_post; state_side
    | match goal with
      | |- guarded _ _ _ _ _ (match negb ?x with _ => _ end) _ => destruct x
      | |- guarded _ _ _ _ _ (match ?x with _ => _ end) _ => destruct x
      end
    | eapply g_weaken; [ guard_line | intros ? Hpre; exact Hpre | state_side ]
    ].

(** The leaf of a loop: its next turn, by the induction hypothesis. *)
Ltac by_lemma H := eapply g_weaken; [exact H | state_side | auto].

(** ** Deadlines (path-addressed) *)

Lemma path_waitNext_deadlines
  (server : PathAddressed.Server) (Pw : option deadline -> Prop)
  (fuel : nat) :
  guarded _ _ (deadline_step (path_policy server)) (mkDeadlines None None)
          (fun s => Pw (write_deadline s))
          (PathAddressed.waitNext server fuel)
          (fun r s => Pw (write_deadline s)
                      /\ (r = None -> read_deadline s = Some NoDeadline)).
Proof.
  unfold path_policy, timeout_deadline.
  destruct (PathAddressed.idleTimeout server =? 0) eqn:Hidle;
    cbn [negb];
    (induction fuel as [| fuel IH]; cbn [PathAddressed.waitNext];
     [apply g_out_of_fuel |]);
    rewrite Hidle; cbn [negb]; unfold SetReadDeadline.
  all: eapply g_bind; [apply g_emit; state_side | intros ?].
  all: eapply g_bind; [apply g_Peek; state_side | intros [e |]].
  all: try (destruct (is_EOF e);
            [ eapply g_weaken; [exact IH | state_side | auto] |]).
  all: guard_steps fail.
Qed.

Lemma path_serve_loop_deadlines
  (imports : PathAddressed.Imports) (server : PathAddressed.Server)
  (fuel : nat) :
  guarded _ _ (deadline_step (path_policy server)) (mkDeadlines None None)
          (fun s => if PathAddressed.WriteTimeout server =? 0
                    then write_deadline s = Some NoDeadline else True)
          (PathAddressed.serve_loop imports server fuel)
          (fun _ _ => True).
Proof.
  pose proof
    (path_waitNext_deadlines
       server
       (fun o => if PathAddressed.WriteTimeout server =? 0
                 then o = Some NoDeadline else True)) as Hwait.
  unfold path_policy, timeout_deadline in *.
  destruct (PathAddressed.ReadTimeout server =? 0) eqn:HR,
           (PathAddressed.WriteTimeout server =? 0) eqn:HW;
    cbn [negb] in *;
    (induction fuel as [| fuel IH]; cbn [PathAddressed.serve_loop];
     [apply g_out_of_fuel |]);
    unfold PathAddressed.loop_body;
    (eapply g_bind;
     [ intros w s Hs Hpre; unfold PathAddressed.waitNext_call;
       exact (Hwait _ w s Hs Hpre)
     | intros werr ]);
    unfold PathAddressed.after_wait, PathAddressed.keepAlive,
      PathAddressed.responseStatus, PathAddressed.responseSuccess,
      SetReadDeadline, SetWriteDeadline;
    rewrite ?HR, ?HW; cbn [negb when];
    guard_steps ltac:(by_lemma IH).
Qed.

(** X12: in every run of the path-addressed [serve], however it ends,
    every blocking call on the stream is made under the deadline of its own
    phase, set by the connection itself: each [Peek] under the idle timeout
    (none when it is zero), each [ReadSocket] under [ReadTimeout] (none when
    it is zero) and never under the idle deadline, each [WriteSocket] under
    [WriteTimeout] (none when it is zero). *)
Theorem path_calls_under_their_deadline
  (imports : PathAddressed.Imports) (server : PathAddressed.Server)
  (fuel : nat) (ps : list (option error))
  (rs : list PathAddressed.read_result)
  (ws : list PathAddressed.write_result) :
  match PathAddressed.serve imports server fuel (mkWorld ps rs ws []) with
  | Ok _ w' | Panic _ w' | Blocked w' | OutOfFuel w' =>
      under_deadlines (path_policy server) (trace w') = true
  end.
Proof.
  apply guarded_accepts
    with (P := fun s => s = mkDeadlines None None) (Q := fun _ _ => True)
         (s := mkDeadlines None None); [| reflexivity | reflexivity].
  pose proof (path_serve_loop_deadlines imports server fuel) as Hloop.
  unfold PathAddressed.serve.
  apply g_recover
    with (Q := fun _ _ => True)
         (k := fun e => PathAddressed.Close e ;; emit EvConnsHistDec)
         (h := fun v => emit (EvLogErrorf v) ;;
                        PathAddressed.Close (errors_New "serve default close") ;;
                        emit EvConnsHistDec).
  - unfold PathAddressed.serve_body, SetReadDeadline, SetWriteDeadline.
    unfold path_policy, timeout_deadline in *.
    destruct (PathAddressed.ReadTimeout server =? 0) eqn:HR,
             (PathAddressed.WriteTimeout server =? 0) eqn:HW;
      cbn [negb when] in *;
      guard_steps ltac:(by_lemma Hloop).
  - intros e. unfold PathAddressed.Close. guard_steps fail.
  - intros v. unfold PathAddressed.Close. guard_steps fail.
Qed.

(** The monitor does refuse: a peek before any deadline was set, or a read
    under the deadline of another phase. *)
Lemma under_deadlines_refuses (policy : deadline_policy) (n : Z) :
  under_deadlines policy [EvPeek n] = false
  /\ under_deadlines (mkPolicy (NowPlus 5) NoDeadline NoDeadline)
                     [EvSetReadDeadline (NowPlus 5); EvPeek n; EvReadSocket]
     = false.
Proof. split; reflexivity. Qed.

(** ** Deadlines (code-addressed) *)

(** As [by_lemma], for a sub-program in the middle of a program. *)
Ltac by_lemma_then H :=
  eapply g_bind;
  [ eapply g_weaken; [exact H | state_side | intros ? ? Hq; exact Hq]
  | intros ? ].

Lemma code_waitNext_deadlines
  (imports : CodeAddressed.Imports) (server : CodeAddressed.Server)
  (Pw : option deadline -> Prop) :
  guarded _ _ (deadline_step (code_policy server)) (mkDeadlines None None)
          (fun s => Pw (write_deadline s))
          (CodeAddressed.waitNext imports server)
          (fun next s => Pw (write_deadline s)
                         /\ (next = true -> read_deadline s = Some NoDeadline)).
Proof.
  unfold code_policy, timeout_deadline, CodeAddressed.waitNext,
    SetReadDeadline.
  destruct (CodeAddressed.idleTimeout server =? 0); cbn [negb];
    guard_steps fail.
Qed.

Lemma code_serve_loop_deadlines
  (imports : CodeAddressed.Imports) (server : CodeAddressed.Server)
  (fuel : nat) :
  guarded _ _ (deadline_step (code_policy server)) (mkDeadlines None None)
          (fun s =>
             (if CodeAddressed.WriteTimeout server =? 0
              then write_deadline s = Some NoDeadline else True)
             /\ (if CodeAddressed.ReadTimeout server =? 0
                 then read_deadline s = Some NoDeadline else True))
          (CodeAddressed.serve_loop imports server fuel)
          (fun _ _ => True).
Proof.
  pose proof
    (code_waitNext_deadlines
       imports server
       (fun o => if CodeAddressed.WriteTimeout server =? 0
                 then o = Some NoDeadline else True)) as Hwait.
  unfold code_policy, timeout_deadline in *.
  destruct (CodeAddressed.ReadTimeout server =? 0) eqn:HR,
           (CodeAddressed.WriteTimeout server =? 0) eqn:HW;
    cbn [negb] in *;
    (induction fuel as [| fuel IH]; cbn [CodeAddressed.serve_loop];
     [apply g_out_of_fuel |]);
    unfold CodeAddressed.loop_body, CodeAddressed.wait_then,
      CodeAddressed.responseError, SetReadDeadline, SetWriteDeadline;
    rewrite ?HR, ?HW; cbn [negb when];
    guard_steps ltac:(first [by_lemma IH | by_lemma_then Hwait]).
Qed.

(** X13: in every run of the code-addressed [serve], however it ends,
    every blocking call on the stream is made under the deadline of its own
    phase, set by the connection itself: each [Peek] under the idle timeout,
    each read of a message under [ReadTimeout] (none when it is zero) and
    never under the idle deadline, each [WriteSocket] under [WriteTimeout]
    (none when it is zero). *)
Theorem code_calls_under_their_deadline
  (imports : CodeAddressed.Imports) (server : CodeAddressed.Server)
  (fuel : nat) (ps : list (option error))
  (rs : list CodeAddressed.read_result)
  (ws : list CodeAddressed.write_result) :
  match CodeAddressed.serve imports server fuel (mkWorld ps rs ws []) with
  | Ok _ w' | Panic _ w' | Blocked w' | OutOfFuel w' =>
      under_deadlines (code_policy server) (trace w') = true
  end.
Proof.
  apply guarded_accepts
    with (P := fun s => s = mkDeadlines None None) (Q := fun _ _ => True)
         (s := mkDeadlines None None); [| reflexivity | reflexivity].
  pose proof (code_serve_loop_deadlines imports server fuel) as Hloop.
  unfold CodeAddressed.serve.
  apply g_recover
    with (Q := fun _ _ => True)
         (k := fun _ => CodeAddressed.Close)
         (h := fun v => emit (EvLogErrorf v) ;; CodeAddressed.Close).
  - unfold CodeAddressed.serve_body, SetReadDeadline, SetWriteDeadline.
    unfold code_policy, timeout_deadline in *.
    destruct (CodeAddressed.ReadTimeout server =? 0) eqn:HR,
             (CodeAddressed.WriteTimeout server =? 0) eqn:HW;
      cbn [negb when] in *;
      guard_steps ltac:(by_lemma Hloop).
  - intros e. unfold CodeAddressed.Close. guard_steps fail.
  - intros v. unfold CodeAddressed.Close. guard_steps fail.
Qed.

(** ** One frame per message *)

(** The monitor does refuse: a frame that answers nothing, and a second
    frame for one message. *)
Lemma answers_only_refuses (h : Header) (body : bytes) :
  answers_only [EvWriteSocket h body] = false
  /\ answers_only [EvReadSocket; EvWriteSocket h body; EvWriteSocket h body]
     = false.
Proof. split; reflexivity. Qed.

Lemma path_waitNext_answers (server : PathAddressed.Server) (fuel : nat) :
  guarded _ _ answer_step false (fun _ => True)
          (PathAddressed.waitNext server fuel) (fun _ _ => True).
Proof.
  induction fuel as [| fuel IH]; cbn [PathAddressed.waitNext];
    [apply g_out_of_fuel |].
  unfold SetReadDeadline.
  destruct (negb (PathAddressed.idleTimeout server =? 0));
    guard_steps ltac:(by_lemma IH).
Qed.

Lemma path_serve_loop_answers
  (imports : PathAddressed.Imports) (server : PathAddressed.Server)
  (fuel : nat) :
  guarded _ _ answer_step false (fun _ => True)
          (PathAddressed.serve_loop imports server fuel) (fun _ _ => True).
Proof.
  induction fuel as [| fuel IH]; cbn [PathAddressed.serve_loop];
    [apply g_out_of_fuel |].
  unfold PathAddressed.loop_body.
  eapply g_bind;
    [ intros w s Hs Hpre; unfold PathAddressed.waitNext_call;
      exact (path_waitNext_answers server _ w s Hs Hpre)
    | intros werr ].
  unfold PathAddressed.after_wait, PathAddressed.keepAlive,
    PathAddressed.responseStatus, PathAddressed.responseSuccess,
    SetReadDeadline, SetWriteDeadline.
  destruct (negb (PathAddressed.ReadTimeout server =? 0)),
           (negb (PathAddressed.WriteTimeout server =? 0));
    cbn [when]; guard_steps ltac:(by_lemma IH).
Qed.

Lemma code_serve_loop_answers
  (imports : CodeAddressed.Imports) (server : CodeAddressed.Server)
  (fuel : nat) :
  guarded _ _ answer_step false (fun _ => True)
          (CodeAddressed.serve_loop imports server fuel) (fun _ _ => True).
Proof.
  assert (Hwait : guarded _ _ answer_step false (fun _ => True)
                    (CodeAddressed.waitNext imports server)
                    (fun _ _ => True)).
  { unfold CodeAddressed.waitNext, SetReadDeadline.
    destruct (negb (CodeAddressed.idleTimeout server =? 0));
      guard_steps fail. }
  induction fuel as [| fuel IH]; cbn [CodeAddressed.serve_loop];
    [apply g_out_of_fuel |].
  unfold CodeAddressed.loop_body, CodeAddressed.wait_then,
    CodeAddressed.responseError, SetReadDeadline, SetWriteDeadline.
  destruct (negb (CodeAddressed.ReadTimeout server =? 0)),
           (negb (CodeAddressed.WriteTimeout server =? 0));
    cbn [when];
    guard_steps ltac:(first [by_lemma IH | by_lemma_then Hwait]).
Qed.

(** Frames follow read calls: in every run of [serve] of either variant,
    however it ends, each frame handed to [WriteSocket] follows a call of
    the read that no frame has followed yet. *)
Lemma frames_answer_reads :
  (forall (imports : PathAddressed.Imports) (server : PathAddressed.Server)
          (fuel : nat) (ps : list (option error))
          (rs : list PathAddressed.read_result)
          (ws : list PathAddressed.write_result),
      match PathAddressed.serve imports server fuel (mkWorld ps rs ws []) with
      | Ok _ w' | Panic _ w' | Blocked w' | OutOfFuel w' =>
          answers_only (trace w') = true
      end)
  /\ (forall (imports : CodeAddressed.Imports) (server : CodeAddressed.Server)
             (fuel : nat) (ps : list (option error))
             (rs : list CodeAddressed.read_result)
             (ws : list CodeAddressed.write_result),
      match CodeAddressed.serve imports server fuel (mkWorld ps rs ws []) with
      | Ok _ w' | Panic _ w' | Blocked w' | OutOfFuel w' =>
          answers_only (trace w') = true
      end).
Proof.
  split.
  - intros imports server fuel ps rs ws.
    apply guarded_accepts
      with (P := fun _ => True) (Q := fun _ _ => True) (s := false);
      [| reflexivity | exact I].
    pose proof (path_serve_loop_answers imports server fuel) as Hloop.
    unfold PathAddressed.serve.
    apply g_recover
      with (Q := fun _ _ => True)
           (k := fun e => PathAddressed.Close e ;; emit EvConnsHistDec)
           (h := fun v =>
                   emit (EvLogErrorf v) ;;
                   PathAddressed.Close (errors_New "serve default close") ;;
                   emit EvConnsHistDec).
    + unfold PathAddressed.serve_body, SetReadDeadline, SetWriteDeadline.
      destruct (PathAddressed.ReadTimeout server =? 0),
               (PathAddressed.WriteTimeout server =? 0);
        cbn [when]; guard_steps ltac:(by_lemma Hloop).
    + intros e. unfold PathAddressed.Close. guard_steps fail.
    + intros v. unfold PathAddressed.Close. guard_steps fail.
  - intros imports server fuel ps rs ws.
    apply guarded_accepts
      with (P := fun _ => True) (Q := fun _ _ => True) (s := false);
      [| reflexivity | exact I].
    pose proof (code_serve_loop_answers imports server fuel) as Hloop.
    unfold CodeAddressed.serve.
    apply g_recover
      with (Q := fun _ _ => True)
           (k := fun _ => CodeAddressed.Close)
           (h := fun v => emit (EvLogErrorf v) ;; CodeAddressed.Close).
    + unfold CodeAddressed.serve_body, SetReadDeadline, SetWriteDeadline.
      destruct (CodeAddressed.ReadTimeout server =? 0),
               (CodeAddressed.WriteTimeout server =? 0);
        cbn [when]; guard_steps ltac:(by_lemma Hloop).
    + intros e. unfold CodeAddressed.Close. guard_steps fail.
    + intros v. unfold CodeAddressed.Close. guard_steps fail.
Qed.

(** ** Peek before read (path-addressed) *)

Lemma path_waitNext_peeks (server : PathAddressed.Server) (fuel : nat) :
  guarded _ _ peek_step false (fun _ => True)
          (PathAddressed.waitNext server fuel)
          (fun _ peeked => peeked = true).
Proof.
  induction fuel as [| fuel IH]; cbn [PathAddressed.waitNext];
    [apply g_out_of_fuel |].
  unfold SetReadDeadline.
  destruct (negb (PathAddressed.idleTimeout server =? 0));
    guard_steps ltac:(by_lemma IH).
Qed.

Lemma path_serve_loop_peeks
  (imports : PathAddressed.Imports) (server : PathAddressed.Server)
  (fuel : nat) :
  guarded _ _ peek_step false (fun _ => True)
          (PathAddressed.serve_loop imports server fuel) (fun _ _ => True).
Proof.
  induction fuel as [| fuel IH]; cbn [PathAddressed.serve_loop];
    [apply g_out_of_fuel |].
  unfold PathAddressed.loop_body.
  eapply g_bind;
    [ intros w s Hs Hpre; unfold PathAddressed.waitNext_call;
      exact (path_waitNext_peeks server _ w s Hs Hpre)
    | intros werr ].
  unfold PathAddressed.after_wait, PathAddressed.keepAlive,
    PathAddressed.responseStatus, PathAddressed.responseSuccess,
    SetReadDeadline, SetWriteDeadline.
  destruct (negb (PathAddressed.ReadTimeout server =? 0)),
           (negb (PathAddressed.WriteTimeout server =? 0));
    cbn [when]; guard_steps ltac:(by_lemma IH).
Qed.

(** X15: the path-addressed connection starts every turn in the wait: in
    every run of [serve], however it ends, each [ReadSocket] comes after a
    [Peek] made since the previous [ReadSocket]; no message is read on a
    stream that has not been probed first.  The code-addressed connection
    does not have this property: its first read comes before any peek. *)
Theorem path_reads_follow_peeks
  (imports : PathAddressed.Imports) (server : PathAddressed.Server)
  (fuel : nat) (ps : list (option error))
  (rs : list PathAddressed.read_result)
  (ws : list PathAddressed.write_result) :
  match PathAddressed.serve imports server fuel (mkWorld ps rs ws []) with
  | Ok _ w' | Panic _ w' | Blocked w' | OutOfFuel w' =>
      reads_follow_peeks (trace w') = true
  end
  /\ match CodeAddressed.serve_call code_imports (code_server 5 true)
             (code_two_requests 1)
     with
     | Ok _ w' | Panic _ w' | Blocked w' | OutOfFuel w' =>
         reads_follow_peeks (trace w') = false
     end.
Proof.
  split; [| vm_compute; reflexivity].
  apply guarded_accepts
    with (P := fun _ => True) (Q := fun _ _ => True) (s := false);
    [| reflexivity | exact I].
  pose proof (path_serve_loop_peeks imports server fuel) as Hloop.
  unfold PathAddressed.serve.
  apply g_recover
    with (Q := fun _ _ => True)
         (k := fun e => PathAddressed.Close e ;; emit EvConnsHistDec)
         (h := fun v =>
                 emit (EvLogErrorf v) ;;
                 PathAddressed.Close (errors_New "serve default close") ;;
                 emit EvConnsHistDec).
  - unfold PathAddressed.serve_body, SetReadDeadline, SetWriteDeadline.
    destruct (PathAddressed.ReadTimeout server =? 0),
             (PathAddressed.WriteTimeout server =? 0);
      cbn [when]; guard_steps ltac:(by_lemma Hloop).
  - intros e. unfold PathAddressed.Close. guard_steps fail.
  - intros v. unfold PathAddressed.Close. guard_steps fail.
Qed.

(** ** A whole turn (path-addressed) *)

(** X16: a dispatched request, whatever its handler returns.  When the
    body unmarshals, its path is registered, the handler returns (bytes, or
    an error) and the envelope marshals, the turn writes one frame that
    echoes the magic and version of the request with header code 0 and
    carries the marshalled envelope (an error of the handler travels inside
    the envelope, not in the header); when that write succeeds and
    keep-alive is enabled, the loop goes on to its next turn. *)
Theorem path_dispatched_turn
  (imports : PathAddressed.Imports) (server : PathAddressed.Server)
  (fuel : nat) (ps : list (option error)) (h : Header) (body : bytes)
  (rs : list PathAddressed.read_result) (broken : bool)
  (ws : list PathAddressed.write_result) (t : list event)
  (request : PathAddressed.Request) (handler : PathAddressed.Handler)
  (bs : bytes) (err : option error) (rspBytes : bytes) :
  PathAddressed.Unmarshal imports body = Some request ->
  PathAddressed.getHandler server (PathAddressed.Request_Path request)
    = Some handler ->
  handler (PathAddressed.Request_Req request) = Returns (bs, err) ->
  PathAddressed.Marshal imports (PathAddressed.wrap_response bs err)
    = inl rspBytes ->
  PathAddressed.doKeepAlives server = true ->
  PathAddressed.serve_loop imports server (S fuel)
    (mkWorld (None :: ps) (PathAddressed.ReadOk h body :: rs)
             ((broken, None) :: ws) t)
  = PathAddressed.serve_loop imports server fuel
      (mkWorld ps rs ws
         (t ++ PathAddressed.wait_events server
            ++ PathAddressed.read_events server
            ++ PathAddressed.write_deadline_events server
            ++ [EvWriteSocket
                  (mkHeader (Magic h) (Version h) 0 (uint16 (len rspBytes)))
                  rspBytes;
                EvWriteHistUpdate])).
Proof.
  intros Hreq Hreg Hcall Hmarshal Hkeep.
  assert (Hserve : PathAddressed.handleServe imports server body
                   = Returns (rspBytes, None)).
  { unfold PathAddressed.handleServe, PathAddressed.wrap.
    now rewrite Hreq, Hreg, Hcall, Hmarshal. }
  change (PathAddressed.serve_loop imports server (S fuel))
    with (PathAddressed.loop_body imports server
            (PathAddressed.serve_loop imports server fuel)).
  rewrite (path_turn_success _ _ _ _ _ _ _ _ _ _ Hserve).
  unfold PathAddressed.keepAlive. rewrite Hkeep.
  destruct broken; flatten_trace; reflexivity.
Qed.

Lemma path_dispatched_turn_witness :
  PathAddressed.serve_loop path_imports (timed_server true) 2
    (mkWorld [None] [path_read "/fail" "hi"] [(false, None)] [])
  = Blocked
      (mkWorld [] [] []
         [EvSetReadDeadline (NowPlus 5); EvPeek 1;
          EvSetReadDeadline NoDeadline;
          EvSetReadDeadline (NowPlus 3); EvReadSocket; EvReadHistUpdate;
          EvSetWriteDeadline (NowPlus 4);
          EvWriteSocket (mkHeader 9527 1 0 13)
                        (x01 :: bytes_of_string "no such user");
          EvWriteHistUpdate;
          EvSetReadDeadline (NowPlus 5); EvPeek 1]).
Proof.
  exact (path_dispatched_turn
           path_imports (timed_server true) 1 []
           (request_header 0 (len (request "/fail" "hi")))
           (request "/fail" "hi") [] false [] []
           (PathAddressed.mkRequest "/fail" (bytes_of_string "hi"))
           (fun _ => Returns ([], Some (errors_New "no such user")))
           [] (Some (errors_New "no such user"))
           (x01 :: bytes_of_string "no such user")
           eq_refl eq_refl eq_refl eq_refl eq_refl).
Defined.

(** ** Frames and messages read *)

Section Answering.
Variables R W : Type.
Variable ok : R -> bool.
Variable rs0 : list R.

Lemma frames_snoc (t : list event) (e : event) :
  frames (t ++ [e]) = (frames t + (if is_WriteSocket e then 1 else 0))%nat.
Proof.
  unfold frames, occurrences. rewrite filter_app, length_app. cbn.
  destruct (is_WriteSocket e); reflexivity.
Qed.

Lemma slack_le (k k' : nat) (w : world R W) :
  (k' <= k)%nat -> slack ok rs0 k w -> slack ok rs0 k' w.
Proof. intros Hk [c [Hc Hf]]. exists c. split; [exact Hc | lia]. Qed.

Lemma slack_trace (k : nat) (w : world R W) (e : event) :
  is_WriteSocket e = false ->
  slack ok rs0 k w ->
  slack ok rs0 k (mkWorld (peeks w) (reads w) (writes w) (trace w ++ [e])).
Proof.
  intros He [c [Hc Hf]]. exists c. cbn -[frames]. rewrite frames_snoc, He.
  split; [exact Hc | lia].
Qed.

Lemma a_ret (A : Type) (k : nat) (a : A) :
  answering W ok rs0 k (ret a) (fun _ => k).
Proof. intros w Hw. exact Hw. Qed.

Lemma a_ret_zero (A : Type) (k : nat) (a : A) :
  answering W ok rs0 k (ret a) (fun _ => 0%nat).
Proof. intros w Hw. apply slack_le with k; [lia | exact Hw]. Qed.

Lemma a_panic (A : Type) (k : nat) (Q : A -> nat) (v : string) :
  answering W ok rs0 k (panic v) Q.
Proof. intros w Hw. apply slack_le with k; [lia | exact Hw]. Qed.

Lemma a_out_of_fuel (A : Type) (k : nat) (Q : A -> nat) :
  answering W ok rs0 k out_of_fuel Q.
Proof. intros w Hw. apply slack_le with k; [lia | exact Hw]. Qed.

Lemma a_run_call (A : Type) (k : nat) (c : call A) :
  answering W ok rs0 k (run_call c) (fun _ => k).
Proof. destruct c; [apply a_ret | apply a_panic]. Qed.

Lemma a_bind (A B : Type) (k : nat) (Q : A -> nat) (T : B -> nat)
      (m : M (world R W) A) (f : A -> M (world R W) B) :
  answering W ok rs0 k m Q -> (forall a, answering W ok rs0 (Q a) (f a) T) ->
  answering W ok rs0 k (bind m f) T.
Proof.
  intros Hm Hf w Hw. specialize (Hm w Hw). cbn.
  destruct (m w) as [a w1 | v w1 | w1 | w1]; try exact Hm.
  exact (Hf a w1 Hm).
Qed.

Lemma a_pre (A : Type) (k k' : nat) (Q : A -> nat) (m : M (world R W) A) :
  answering W ok rs0 k' m Q -> (k' <= k)%nat -> answering W ok rs0 k m Q.
Proof. intros Hm Hk w Hw. apply Hm. now apply slack_le with k. Qed.

Lemma a_post_zero (A : Type) (k : nat) (Q : A -> nat)
      (m : M (world R W) A) :
  answering W ok rs0 k m Q -> answering W ok rs0 k m (fun _ => 0%nat).
Proof.
  intros Hm w Hw. specialize (Hm w Hw).
  destruct (m w); try exact Hm. apply slack_le with (Q a); [lia | exact Hm].
Qed.

Lemma a_emit (k : nat) (e : event) :
  is_WriteSocket e = false -> answering W ok rs0 k (emit e) (fun _ => k).
Proof. intros He w Hw. cbn. now apply slack_trace. Qed.

Lemma a_Peek (k : nat) (n : Z) :
  answering W ok rs0 k (Peek n) (fun _ => k).
Proof.
  intros w [c [Hc Hf]]. cbn -[frames].
  destruct (peeks w); exists c; cbn -[frames]; rewrite frames_snoc;
    cbn -[frames]; (split; [exact Hc | lia]).
Qed.

Lemma a_ReadSocket (k : nat) :
  answering W ok rs0 k (@ReadSocket R W)
            (fun r => if ok r then S k else k).
Proof.
  intros w [c [Hc Hf]]. cbn -[frames].
  destruct (reads w) as [| r rs] eqn:E.
  - exists c. cbn -[frames]. rewrite frames_snoc. cbn -[frames].
    split; [exact Hc | lia].
  - exists (c ++ [r]). cbn -[frames]. rewrite frames_snoc. cbn -[frames].
    split.
    + rewrite <- app_assoc. exact Hc.
    + rewrite filter_app, length_app. cbn -[frames].
      destruct (ok r); cbn -[frames]; lia.
Qed.

Lemma a_WriteSocket (k : nat) (h : Header) (body : bytes) :
  answering W ok rs0 (S k) (@WriteSocket R W h body) (fun _ => k).
Proof.
  intros w [c [Hc Hf]]. cbn -[frames].
  destruct (writes w); exists c; cbn -[frames]; rewrite frames_snoc;
    cbn -[frames]; (split; [exact Hc | lia]).
Qed.

Lemma a_recover (A B : Type) (k : nat) (Q : A -> nat) (T : B -> nat)
      (m : M (world R W) A) (f : A -> M (world R W) B)
      (h : string -> M (world R W) B) :
  answering W ok rs0 k m Q ->
  (forall a, answering W ok rs0 (Q a) (f a) T) ->
  (forall v, answering W ok rs0 0 (h v) T) ->
  answering W ok rs0 k
    (fun w => match m w with
              | Ok a w' => f a w'
              | Panic v w' => h v w'
              | Blocked w' => Blocked w'
              | OutOfFuel w' => OutOfFuel w'
              end) T.
Proof.
  intros Hm Hf Hh w Hw. specialize (Hm w Hw).
  destruct (m w) as [a w1 | v w1 | w1 | w1]; try exact Hm.
  - exact (Hf a w1 Hm).
  - exact (Hh v w1 Hm).
Qed.

(** What [answering] says of a run. *)
Lemma answering_run (A : Type) (k : nat) (Q : A -> nat)
      (m : M (world R W) A) (w : world R W) :
  answering W ok rs0 k m Q -> slack ok rs0 k w ->
  match m w with
  | Ok _ w' | Panic _ w' | Blocked w' | OutOfFuel w' =>
      exists consumed : list R,
        rs0 = consumed ++ reads w'
        /\ (frames (trace w') <= List.length (filter ok consumed))%nat
  end.
Proof.
  intros Hm Hw. specialize (Hm w Hw).
  destruct (m w); destruct Hm as [c [Hc Hf]]; exists c;
    (split; [exact Hc | lia]).
Qed.
End Answering.

(** A straight-line program. *)
Ltac answer_line :=
  first
    [ apply a_emit; reflexivity
    | apply a_Peek | apply a_ReadSocket | apply a_WriteSocket
    | apply a_run_call | apply a_ret
    | eapply a_bind; [ answer_line | intros ?; answer_line ] ].

(** Splits a program along its binds and branches; [leaf] closes the goals
    of the sub-programs that have a lemma of their own. *)
Ltac answer_steps leaf :=
  repeat first
    [ apply a_out_of_fuel | apply a_panic
    | leaf
    | eapply a_bind; [ answer_line | intros ? ]
    | apply a_ret_zero
    | match goal with
      | |- answering _ _ _ _ (match negb ?x with _ => _ end) _ => destruct x
      | |- answering _ _ _ _ (match ?x with _ => _ end) _ => destruct x
      end
    | eapply a_post_zero; answer_line ].

Ltac by_turn H := eapply a_pre; [exact H | cbn; lia].
Ltac by_wait H := eapply a_bind; [ apply H | intros ? ].

Lemma path_waitNext_answering
  (server : PathAddressed.Server) (rs0 : list PathAddressed.read_result)
  (k : nat) (fuel : nat) :
  answering _ path_read_ok rs0 k (PathAddressed.waitNext server fuel)
            (fun _ => k).
Proof.
  induction fuel as [| fuel IH]; cbn [PathAddressed.waitNext];
    [apply a_out_of_fuel |].
  unfold SetReadDeadline.
  destruct (negb (PathAddressed.idleTimeout server =? 0)).
  all: eapply a_bind; [answer_line | intros ?].
  all: eapply a_bind; [answer_line | intros [e |]].
  all: try (destruct (is_EOF e); [exact IH | apply a_ret]).
  all: answer_line.
Qed.

Lemma path_serve_loop_answering
  (imports : PathAddressed.Imports) (server : PathAddressed.Server)
  (rs0 : list PathAddressed.read_result) (fuel : nat) :
  answering _ path_read_ok rs0 0 (PathAddressed.serve_loop imports server fuel)
            (fun _ => 0%nat).
Proof.
  induction fuel as [| fuel IH]; cbn [PathAddressed.serve_loop];
    [apply a_out_of_fuel |].
  unfold PathAddressed.loop_body.
  eapply a_bind;
    [ intros w Hw; unfold PathAddressed.waitNext_call;
      exact (path_waitNext_answering server rs0 0 _ w Hw)
    | intros werr ].
  unfold PathAddressed.after_wait, PathAddressed.keepAlive,
    PathAddressed.responseStatus, PathAddressed.responseSuccess,
    SetReadDeadline, SetWriteDeadline.
  destruct (negb (PathAddressed.ReadTimeout server =? 0)),
           (negb (PathAddressed.WriteTimeout server =? 0));
    cbn [when]; answer_steps ltac:(by_turn IH).
Qed.

Lemma code_serve_loop_answering
  (imports : CodeAddressed.Imports) (server : CodeAddressed.Server)
  (rs0 : list CodeAddressed.read_result) (fuel : nat) :
  answering _ code_read_ok rs0 0 (CodeAddressed.serve_loop imports server fuel)
            (fun _ => 0%nat).
Proof.
  assert (Hwait : forall k, answering _ code_read_ok rs0 k
                              (CodeAddressed.waitNext imports server)
                              (fun _ => k)).
  { intros k. unfold CodeAddressed.waitNext, SetReadDeadline.
    destruct (negb (CodeAddressed.idleTimeout server =? 0));
      [| apply a_ret].
    eapply a_bind; [answer_line | intros ?].
    eapply a_bind; [answer_line | intros [e |]]; answer_line. }
  induction fuel as [| fuel IH]; cbn [CodeAddressed.serve_loop];
    [apply a_out_of_fuel |].
  unfold CodeAddressed.loop_body, CodeAddressed.wait_then,
    CodeAddressed.responseError, SetReadDeadline, SetWriteDeadline.
  destruct (negb (CodeAddressed.ReadTimeout server =? 0)),
           (negb (CodeAddressed.WriteTimeout server =? 0));
    cbn [when];
    answer_steps ltac:(first [by_turn IH | by_wait Hwait]).
Qed.

(** X14: a connection only answers.  In every run of [serve] of either
    variant, however it ends, the frames handed to [WriteSocket] never
    outnumber the messages that the reads consumed so far have brought (a
    read that fails brings none), and each frame follows a read that no
    frame has followed yet: no frame before the first read, no frame for a
    read that failed, never two frames for one read. *)
Theorem frames_answer_messages :
  (forall (imports : PathAddressed.Imports) (server : PathAddressed.Server)
          (fuel : nat) (ps : list (option error))
          (rs : list PathAddressed.read_result)
          (ws : list PathAddressed.write_result),
      match PathAddressed.serve imports server fuel (mkWorld ps rs ws []) with
      | Ok _ w' | Panic _ w' | Blocked w' | OutOfFuel w' =>
          answers_only (trace w') = true
          /\ exists consumed : list PathAddressed.read_result,
               rs = consumed ++ reads w'
               /\ (frames (trace w')
                   <= List.length (filter path_read_ok consumed))%nat
      end)
  /\ (forall (imports : CodeAddressed.Imports) (server : CodeAddressed.Server)
             (fuel : nat) (ps : list (option error))
             (rs : list CodeAddressed.read_result)
             (ws : list CodeAddressed.write_result),
      match CodeAddressed.serve imports server fuel (mkWorld ps rs ws []) with
      | Ok _ w' | Panic _ w' | Blocked w' | OutOfFuel w' =>
          answers_only (trace w') = true
          /\ exists consumed : list CodeAddressed.read_result,
               rs = consumed ++ reads w'
               /\ (frames (trace w')
                   <= List.length (filter code_read_ok consumed))%nat
      end).
Proof.
  split.
  - intros imports server fuel ps rs ws.
    pose proof (proj1 frames_answer_reads imports server fuel ps rs ws)
      as Hcalls.
    assert (Hrun : answering _ path_read_ok rs 0
                     (PathAddressed.serve imports server fuel)
                     (fun _ => 0%nat)).
    { pose proof (path_serve_loop_answering imports server rs fuel) as Hloop.
      unfold PathAddressed.serve.
      apply a_recover
        with (Q := fun _ => 0%nat)
             (f := fun e => PathAddressed.Close e ;; emit EvConnsHistDec)
             (h := fun v =>
                     emit (EvLogErrorf v) ;;
                     PathAddressed.Close (errors_New "serve default close") ;;
                     emit EvConnsHistDec).
      - unfold PathAddressed.serve_body, SetReadDeadline, SetWriteDeadline.
        destruct (PathAddressed.ReadTimeout server =? 0),
                 (PathAddressed.WriteTimeout server =? 0);
          cbn [when]; answer_steps ltac:(by_turn Hloop).
      - intros e. unfold PathAddressed.Close. answer_steps fail.
      - intros v. unfold PathAddressed.Close. answer_steps fail. }
    assert (Hcount := @answering_run _ _ _ _ _ _ _ _
                        (mkWorld ps rs ws []) Hrun).
    assert (Hstart : slack path_read_ok rs 0 (mkWorld ps rs ws []))
      by (exists []; split; [reflexivity | cbn; lia]).
    specialize (Hcount Hstart).
    destruct (PathAddressed.serve imports server fuel (mkWorld ps rs ws []));
      (split; [exact Hcalls | exact Hcount]).
  - intros imports server fuel ps rs ws.
    pose proof (proj2 frames_answer_reads imports server fuel ps rs ws)
      as Hcalls.
    assert (Hrun : answering _ code_read_ok rs 0
                     (CodeAddressed.serve imports server fuel)
                     (fun _ => 0%nat)).
    { pose proof (code_serve_loop_answering imports server rs fuel) as Hloop.
      unfold CodeAddressed.serve.
      apply a_recover
        with (Q := fun _ => 0%nat)
             (f := fun _ => CodeAddressed.Close)
             (h := fun v => emit (EvLogErrorf v) ;; CodeAddressed.Close).
      - unfold CodeAddressed.serve_body, SetReadDeadline, SetWriteDeadline.
        destruct (CodeAddressed.ReadTimeout server =? 0),
                 (CodeAddressed.WriteTimeout server =? 0);
          cbn [when]; answer_steps ltac:(by_turn Hloop).
      - intros e. unfold CodeAddressed.Close. answer_steps fail.
      - intros v. unfold CodeAddressed.Close. answer_steps fail. }
    assert (Hcount := @answering_run _ _ _ _ _ _ _ _
                        (mkWorld ps rs ws []) Hrun).
    assert (Hstart : slack code_read_ok rs 0 (mkWorld ps rs ws []))
      by (exists []; split; [reflexivity | cbn; lia]).
    specialize (Hcount Hstart).
    destruct (CodeAddressed.serve imports server fuel (mkWorld ps rs ws []));
      (split; [exact Hcalls | exact Hcount]).
Qed.

(** The count does refuse: after one read that failed, a frame on the trace
    is a frame too many. *)
Lemma frames_need_messages
  (e : error) (h : Header) (body : bytes)
  (ps : list (option error)) (ws : list PathAddressed.write_result) :
  ~ slack path_read_ok [PathAddressed.ReadErr false e] 0
          (mkWorld ps [] ws [EvReadSocket; EvWriteSocket h body]).
Proof.
  intros [consumed [Hc Hf]]. cbn in Hc. rewrite app_nil_r in Hc.
  subst consumed. cbn in Hf. lia.
Qed.
